(** * enforces-shorthand: the shorthand merge of Tailwind CSS class names

    A shallow embedding of [lib/rules/enforces-shorthand.js].  JavaScript
    objects that the rule shares and mutates (the parsed class descriptors)
    live in an explicit store and are named by references, so that the
    aliasing between [parsed], [sameVariantAndValue], [toBeKept] and
    [validated] is the one of the source.  Strings are sequences of 8-bit
    characters; the whitespace of [\s] and [trim] is the ASCII whitespace. *)

From Stdlib Require Import String Ascii List Bool Arith ZArith Lia.
From stdpp Require Import base tactics option list strings.
Import ListNotations.

Local Open Scope string_scope.
Local Open Scope list_scope.

(** ** String helpers standing for the JavaScript built-ins the rule calls *)

(** [arr.includes(s)] on an array of strings. *)
Definition includes (arr : list string) (s : string) : bool :=
  existsb (String.eqb s) arr.

(** [arr.join(sep)]. *)
Fixpoint join (sep : string) (arr : list string) : string :=
  match arr with
  | [] => ""
  | [s] => s
  | s :: rest => s +:+ sep +:+ join sep rest
  end.

(** [s.substring(1)]. *)
Definition substringFrom1 (s : string) : string :=
  match s with
  | EmptyString => ""
  | String _ rest => rest
  end.

(** The characters matched by [\s], restricted to ASCII. *)
Definition isSpace (c : ascii) : bool :=
  let n := nat_of_ascii c in
  Nat.eqb n 32 || Nat.eqb n 9 || Nat.eqb n 10 || Nat.eqb n 11 || Nat.eqb n 12 || Nat.eqb n 13.

(** [/^(\s)*$/.test(s)]. *)
Fixpoint spacesOnly (s : string) : bool :=
  match s with
  | EmptyString => true
  | String c rest => isSpace c && spacesOnly rest
  end.

Fixpoint trimStart (s : string) : string :=
  match s with
  | EmptyString => ""
  | String c rest => if isSpace c then trimStart rest else s
  end.

Fixpoint trimEnd (s : string) : string :=
  match s with
  | EmptyString => ""
  | String c rest =>
      match trimEnd rest with
      | EmptyString => if isSpace c then "" else String c ""
      | r => String c r
      end
  end.

(** [s.trim()]. *)
Definition trim (s : string) : string := trimEnd (trimStart s).

Definition newline : string := String (ascii_of_nat 10) "".

(** ** Data model *)

(** The object returned by [groupUtil.parseClassname], with the fields the
    rule reads or writes. *)
Record ClassDescriptor := mkClass {
  name : string;
  variants : string;
  parentType : string;
  value : string;
  shorthand : string;
  leading : string;
  trailing : string
}.

#[export] Instance ClassDescriptor_inhabited : Inhabited ClassDescriptor :=
  populate (mkClass "" "" "" "" "" "" "").

(** The taxonomy ([defaultGroups]): groups of property families, a family
    being a list of entries that carry a directional code and a body. *)
Record Entry := mkEntry {
  e_shorthand : string;
  e_body : string
}.

Record Family := mkFamily {
  f_type : string;
  f_members : list Entry
}.

Record Group := mkGroup {
  g_type : string;
  g_members : list Family
}.

(** A class descriptor is a heap object: [Ref] is its position in [parsed]. *)
Abbreviation Ref := nat.
Abbreviation Store := (list ClassDescriptor).

Definition deref (st : Store) (r : Ref) : ClassDescriptor := st !!! r.

(** An element of [troubles]: the names to be replaced and the patched name. *)
Definition Trouble : Type := list string * string.

(** ** Taxonomy filter (lines 71-84) *)

Definition targetProperties : list (string * list string) :=
  [ ("Layout", ["Overflow"; "Overscroll Behavior"; "Top / Right / Bottom / Left"]);
    ("Flexbox & Grid", ["Gap"]);
    ("Spacing", ["Padding"; "Margin"]);
    ("Borders", ["Border Radius"; "Border Width"; "Border Color"]);
    ("Transforms", ["Scale"]) ].

Definition targetPropertiesOf (ty : string) : list string :=
  match find (fun p => String.eqb (fst p) ty) targetProperties with
  | Some p => snd p
  | None => []
  end.

Definition targetGroups (defaultGroups : list Group) : list Group :=
  map (fun g =>
         mkGroup (g_type g)
           (List.filter (fun sub => includes (targetPropertiesOf (g_type g)) (f_type sub))
              (g_members g)))
      (List.filter (fun g => includes (map fst targetProperties) (g_type g)) defaultGroups).

(** ** Shorthand lookup (lines 93-106) *)

Definition getBodyByShorthand (tg : list Group) (pty sh : string) : string :=
  let findByMemberType obj := find (fun m => String.eqb (f_type m) pty) (g_members obj) in
  match find (fun obj => bool_decide (is_Some (findByMemberType obj))) tg with
  | None => ""
  | Some mainGroup =>
      match find (fun m => String.eqb (f_type m) pty) (g_members mainGroup) with
      | None => ""
      | Some typeGroup =>
          match find (fun m => String.eqb (e_shorthand m) sh) (f_members typeGroup) with
          | None => ""
          | Some type => e_body type
          end
      end
  end.

(** ** Merge resolver (lines 213-290) *)

(** The derived booleans of lines 213-228. *)
Record Flags := mkFlags {
  supportCorners : bool;
  hasTL : bool; hasTR : bool; hasBR : bool; hasBL : bool;
  hasT : bool; hasR : bool; hasB : bool; hasL : bool;
  hasX : bool; hasY : bool;
  hasAll : bool
}.

(** [arr.some((c) => codes.includes(c.shorthand))]. *)
Definition someIn (codes : list string) (arr : list ClassDescriptor) : bool :=
  existsb (fun c => includes codes (shorthand c)) arr.

(** [arr.some((c) => c.shorthand === code)]. *)
Definition someIs (code : string) (arr : list ClassDescriptor) : bool :=
  existsb (fun c => String.eqb (shorthand c) code) arr.

Definition flagsOf (pty : string) (same : list ClassDescriptor) : Flags :=
  let supportCorners := includes ["Border Radius"] pty in
  let hasTL := supportCorners && someIn ["tl"; "t"; "all"] same in
  let hasTR := supportCorners && someIn ["tr"; "t"; "all"] same in
  let hasBR := supportCorners && someIn ["br"; "b"; "all"] same in
  let hasBL := supportCorners && someIn ["bl"; "b"; "all"] same in
  let hasT := someIs "t" same || (hasTL && hasTR) in
  let hasR := someIs "r" same || (hasTR && hasBR) in
  let hasB := someIs "b" same || (hasBL && hasBR) in
  let hasL := someIs "l" same || (hasTL && hasBL) in
  let hasX := someIs "x" same || (hasL && hasR) in
  let hasY := someIs "y" same || (hasT && hasB) in
  let hasAll := someIs "all" same || (hasY && hasX) in
  mkFlags supportCorners hasTL hasTR hasBR hasBL hasT hasR hasB hasL hasX hasY hasAll.

(** The template literal shared by the three merge branches:
    [`${cls.variants}${minus}${body}${absoluteVal.length ? '-' + absoluteVal : ''}`]. *)
Definition patchedNameOf (c : ClassDescriptor) (body : string) : string :=
  let isNegative := String.eqb (substring 0 1 (value c)) "-" in
  let minus := if isNegative then "-" else "" in
  let absoluteVal := if isNegative then substringFrom1 (value c) else value c in
  variants c +:+ minus +:+ body +:+
    (if Nat.eqb (String.length absoluteVal) 0 then "" else "-" +:+ absoluteVal).

(** The three mutable structures of one run. *)
Record State := mkState {
  store : Store;
  validated : list Ref;
  troubles : list Trouble
}.

(** [cls.name = patchedName; cls.shorthand = code]. *)
Definition patch (st : Store) (cls : Ref) (patchedName code : string) : Store :=
  alter (fun c => mkClass patchedName (variants c) (parentType c) (value c) code
                    (leading c) (trailing c)) cls st.

(** [arr.filter((c) => candidates.includes(c.shorthand))] on references. *)
Definition filterCodes (st : Store) (candidates : list string) (arr : list Ref) : list Ref :=
  List.filter (fun c => includes candidates (shorthand (deref st c))) arr.

Definition names (st : Store) (arr : list Ref) : list string :=
  map (fun c => name (deref st c)) arr.

(** The code of the side merged by the third branch (line 265). *)
Definition sideOf (f : Flags) : string :=
  if hasT f then "t" else if hasR f then "r" else if hasB f then "b" else "l".

(** The body of [else if (sameVariantAndValue.length)], lines 213-290. *)
Definition resolve (tg : list Group) (classname : Ref) (s : State) (cls : Ref)
    (sameVariantAndValue : list Ref) : State :=
  let st := store s in
  let pty := parentType (deref st classname) in
  let f := flagsOf pty (map (deref st) sameVariantAndValue) in
  if hasAll f then
    let all := getBodyByShorthand tg pty "all" in
    let patchedName := patchedNameOf (deref st cls) all in
    mkState (patch st cls patchedName "all")
            (validated s ++ [cls])
            (troubles s ++ [(names st sameVariantAndValue, patchedName)])
  else if hasY f || hasX f then
    let xOrY := if hasX f then "x" else "y" in
    let xOrYType := getBodyByShorthand tg pty xOrY in
    let patchedName := patchedNameOf (deref st cls) xOrYType in
    let toBeReplaced :=
      names st (filterCodes st (if hasX f then ["l"; "r"] else ["t"; "b"]) sameVariantAndValue) in
    let toBeKept :=
      filterCodes st (if hasY f then ["l"; "r"] else ["t"; "b"]) sameVariantAndValue in
    mkState (patch st cls patchedName xOrY)
            (validated s ++ [cls] ++ toBeKept)
            (troubles s ++ [(toBeReplaced, patchedName)])
  else if supportCorners f && (hasT f || hasR f || hasB f || hasL f) then
    let side := sideOf f in
    let sideBody := getBodyByShorthand tg pty side in
    let patchedName := patchedNameOf (deref st cls) sideBody in
    let toBeReplaced :=
      names st (filterCodes st
                  (if hasT f then ["tl"; "tr"] else if hasR f then ["tr"; "br"]
                   else if hasB f then ["bl"; "br"] else ["tl"; "bl"])
                  sameVariantAndValue) in
    let toBeKept :=
      filterCodes st
        (if hasT f then ["bl"; "br"] else if hasR f then ["tl"; "bl"]
         else if hasB f then ["tl"; "tr"] else ["tr"; "br"])
        sameVariantAndValue in
    mkState (patch st cls patchedName side)
            (validated s ++ [cls] ++ toBeKept)
            (troubles s ++ [(toBeReplaced, patchedName)])
  else
    mkState st (validated s ++ sameVariantAndValue) (troubles s).

(** ** Descriptor grouper (lines 191-295) *)

Definition push (s : State) (arr : list Ref) : State :=
  mkState (store s) (validated s ++ arr) (troubles s).

(** [sameType.filter((v) => v.variants === cls.variants && v.value === cls.value)]. *)
Definition sameVariantAndValueOf (st : Store) (cls : Ref) (sameType : list Ref) : list Ref :=
  List.filter (fun v => String.eqb (variants (deref st v)) (variants (deref st cls))
                        && String.eqb (value (deref st v)) (value (deref st cls)))
              sameType.

(** The callback of [sameType.forEach] (lines 203-293); the accumulator is
    the state of the run and [checkedVariantsValue]. *)
Definition visitSameType (tg : list Group) (classname : Ref) (sameType : list Ref)
    (acc : State * list string) (cls : Ref) : State * list string :=
  let s := fst acc in
  let checkedVariantsValue := snd acc in
  let key := variants (deref (store s) cls) +:+ value (deref (store s) cls) in
  if includes checkedVariantsValue key then acc
  else
    let sameVariantAndValue := sameVariantAndValueOf (store s) cls sameType in
    (if Nat.eqb (length sameVariantAndValue) 1 then push s [cls]
     else if negb (Nat.eqb (length sameVariantAndValue) 0)
          then resolve tg classname s cls sameVariantAndValue
          else s,
     checkedVariantsValue ++ [key]).

(** [parsed.filter((cls) => cls.parentType === classname.parentType)]. *)
Definition sameTypeOf (st : Store) (classname : Ref) : list Ref :=
  List.filter (fun cls => String.eqb (parentType (deref st cls)) (parentType (deref st classname)))
              (seq 0 (length st)).

(** The callback of [parsed.forEach] (lines 194-295); the accumulator is the
    state of the run and [checkedGroups]. *)
Definition visitParsed (tg : list Group) (acc : State * list string) (classname : Ref)
    : State * list string :=
  let s := fst acc in
  let checkedGroups := snd acc in
  let pty := parentType (deref (store s) classname) in
  if String.eqb pty "" then (push s [classname], checkedGroups)
  else if negb (includes checkedGroups pty) then
    let sameType := sameTypeOf (store s) classname in
    (fst (fold_left (visitSameType tg classname sameType) sameType (s, [])),
     checkedGroups ++ [pty])
  else acc.

(** Lines 191-295 on the array [parsed]. *)
Definition validate (tg : list Group) (parsed : list ClassDescriptor) : State :=
  fst (fold_left (visitParsed tg) (seq 0 (length parsed)) (mkState parsed [] [], [])).

(** The descriptors of [validated], as they are read at line 298. *)
Definition validatedClasses (s : State) : list ClassDescriptor :=
  map (deref (store s)) (validated s).

(** ** Replacement assembler (lines 298-328) *)

(** What [context.report] receives: the message data and the fix, which
    replaces [r_range] by [r_text].  ESLint calls the [fix] callback while it
    handles the report, so [r_text] is the value that
    [validatedClassNamesValue] holds at that moment. *)
Record Report := mkReport {
  r_classnames : string;
  r_shorthand : string;
  r_range : Z * Z;
  r_text : string
}.

(** The source location handed to the analysis once the switch of lines
    122-163 has run. *)
Record Segment := mkSegment {
  originalClassNamesValue : string;
  seg_start : Z;
  seg_end : Z;
  seg_prefix : string;
  seg_suffix : string;
  seg_trim : bool
}.

(** Line 298. *)
Definition unionOf (s : State) : list string :=
  map (fun val => leading val +:+ name val +:+ trailing val) (validatedClasses s).

(** Lines 300-306. *)
Definition assemble (isSingleLine : bool) (before after : option string) (s : State) : string :=
  join (if isSingleLine then " " else newline)
       (option_list before ++ unionOf s ++ option_list after).

(** [troubles.filter((trouble) => trouble[0].length)]. *)
Definition issuesOf (s : State) : list Trouble :=
  List.filter (fun trouble => negb (Nat.eqb (length (fst trouble)) 0)) (troubles s).

(** The callback of the final [forEach] (lines 313-328); the accumulator is
    [validatedClassNamesValue] and the reports made so far. *)
Definition reportIssue (seg : Segment) (originalPatched : string)
    (acc : string * list Report) (issue : Trouble) : string * list Report :=
  let validatedClassNamesValue := fst acc in
  if negb (String.eqb originalPatched validatedClassNamesValue) then
    let validatedClassNamesValue' :=
      seg_prefix seg +:+ validatedClassNamesValue +:+ seg_suffix seg in
    (validatedClassNamesValue',
     snd acc ++ [mkReport (join ", " (fst issue)) (snd issue)
                          (seg_start seg, seg_end seg) validatedClassNamesValue'])
  else acc.

(** ** The collaborators of the rule

    [attrUtil], [groupUtil] and [astUtil] are other modules of the plugin;
    the rule is embedded over any implementation of them.  [parseClassname]
    stands for [groupUtil.parseClassname(className, targetGroups,
    mergedConfig, index)] with the configuration of the rule instance. *)
Class Collaborators := {
  getClassNamesFromAttribute : string -> bool -> list string;
  isSingleLine : string -> bool;
  parseClassname : string -> list Group -> nat -> ClassDescriptor;
  getTemplateElementPrefix : string -> string -> string;
  getTemplateElementSuffix : string -> string -> string
}.

(** Lines 165-178: the class names, and the whitespace tokens set aside. *)
Definition shiftSpaces (classNames : list string) : option string * list string :=
  match classNames with
  | c :: rest => if spacesOnly c then (Some c, rest) else (None, classNames)
  | [] => (None, [])
  end.

Definition popSpaces (classNames : list string) : list string * option string :=
  match last classNames with
  | Some c => if spacesOnly c then (removelast classNames, Some c) else (classNames, None)
  | None => (classNames, None)
  end.

Record Tokens := mkTokens {
  t_before : option string;
  t_classNames : list string;
  t_after : option string
}.

Definition tokensOf `{Collaborators} (seg : Segment) : Tokens :=
  let classNames := getClassNamesFromAttribute (originalClassNamesValue seg) (seg_trim seg) in
  if isSingleLine (originalClassNamesValue seg) then mkTokens None classNames None
  else
    let shifted := shiftSpaces classNames in
    let popped := popSpaces (snd shifted) in
    mkTokens (fst shifted) (fst popped) (snd popped).

(** Lines 185-189. *)
Definition parsedOf `{Collaborators} (tg : list Group) (seg : Segment) : list ClassDescriptor :=
  imap (fun index className => parseClassname className tg index) (t_classNames (tokensOf seg)).

(** What one run leaves behind when it gets past line 183. *)
Record Outcome := mkOutcome {
  o_state : State;
  o_value : string;
  o_final : string;
  o_reports : list Report
}.

(** Line 307. *)
Definition originalPatchedOf `{Collaborators} (seg : Segment) : string :=
  if isSingleLine (originalClassNamesValue seg)
  then trim (originalClassNamesValue seg)
  else originalClassNamesValue seg.

(** Lines 165-328; [None] is the early return of line 182.  [o_value] is
    [validatedClassNamesValue] as line 306 computes it and [o_final] the same
    variable when the function returns. *)
Definition analyse `{Collaborators} (tg : list Group) (seg : Segment) : option Outcome :=
  let tokens := tokensOf seg in
  if Nat.leb (length (t_classNames tokens)) 1 then None
  else
    let s := validate tg (parsedOf tg seg) in
    let validatedClassNamesValue :=
      assemble (isSingleLine (originalClassNamesValue seg)) (t_before tokens) (t_after tokens) s in
    let done := fold_left (reportIssue seg (originalPatchedOf seg)) (issuesOf s)
                          (validatedClassNamesValue, []) in
    Some (mkOutcome s validatedClassNamesValue (fst done) (snd done)).

Definition reportsOf `{Collaborators} (tg : list Group) (seg : Segment) : list Report :=
  match analyse tg seg with
  | Some o => o_reports o
  | None => []
  end.

(** ** The nodes visited (lines 122-163) *)

#[warnings="-register-all"]
Inductive Arg :=
| TemplateLiteral (expressions quasis : list Arg)
| ConditionalExpression (consequent alternate : Arg)
| LogicalExpression (right_ : Arg)
| Literal (value : string) (range : Z * Z)
| TemplateElement (raw : string) (range : Z * Z) (txt : string).

(** [parseForShorthandCandidates(node, arg)] for a non-null [arg] of one of
    the five node types of the switch. *)
Fixpoint parseArg `{Collaborators} (tg : list Group) (arg : Arg) : list Report :=
  match arg with
  | TemplateLiteral expressions quasis =>
      flat_map (parseArg tg) expressions ++ flat_map (parseArg tg) quasis
  | ConditionalExpression consequent alternate =>
      parseArg tg consequent ++ parseArg tg alternate
  | LogicalExpression right_ => parseArg tg right_
  | Literal value range =>
      reportsOf tg (mkSegment value (fst range + 1) (snd range - 1) "" "" true)
  | TemplateElement raw range txt =>
      reportsOf tg (mkSegment raw (fst range) (snd range)
                              (getTemplateElementPrefix txt raw)
                              (getTemplateElementSuffix txt raw) false)
  end.

(** [parseForShorthandCandidates(node, arg = null)]: [nodeValue] and
    [nodeRange] are what [astUtil.extractValueFromNode] and
    [astUtil.extractRangeFromNode] give for the node. *)
Definition parseForShorthandCandidates `{Collaborators} (tg : list Group)
    (nodeValue : string) (nodeRange : Z * Z) (arg : option Arg) : list Report :=
  match arg with
  | None =>
      reportsOf tg (mkSegment nodeValue (fst nodeRange + 1) (snd nodeRange - 1) "" "" false)
  | Some a => parseArg tg a
  end.

(** ** The priority order of the resolver, as a decision table *)

Inductive Decision :=
| MergeAll
| MergeAxis (axis : string)
| MergeSide (side : string)
| KeepAll.

(** First match wins: full coverage, then the axis [x], then the axis [y],
    then, for a family with corners, the sides top, right, bottom, left. *)
Definition decisionOf (f : Flags) : Decision :=
  if hasAll f then MergeAll
  else if hasX f then MergeAxis "x"
  else if hasY f then MergeAxis "y"
  else if supportCorners f then
    if hasT f then MergeSide "t"
    else if hasR f then MergeSide "r"
    else if hasB f then MergeSide "b"
    else if hasL f then MergeSide "l"
    else KeepAll
  else KeepAll.

(** The codes of the members that a merge replaces. *)
Definition mergedCodes (code : string) : list string :=
  if String.eqb code "x" then ["l"; "r"]
  else if String.eqb code "y" then ["t"; "b"]
  else if String.eqb code "t" then ["tl"; "tr"]
  else if String.eqb code "r" then ["tr"; "br"]
  else if String.eqb code "b" then ["bl"; "br"]
  else ["tl"; "bl"].

(** The codes of the members that a merge keeps beside the merged class. *)
Definition keptCodes (code : string) : list string :=
  if String.eqb code "x" then ["t"; "b"]
  else if String.eqb code "y" then ["l"; "r"]
  else if String.eqb code "t" then ["bl"; "br"]
  else if String.eqb code "r" then ["tl"; "bl"]
  else if String.eqb code "b" then ["tl"; "tr"]
  else ["tr"; "br"].

(** One merge: the representative [cls] takes the shorthand [code] and the
    name built on its body, [replaced] is reported and [kept] stays. *)
Definition mergeInto (tg : list Group) (classname : Ref) (s : State) (cls : Ref)
    (code : string) (replaced kept : list Ref) : State :=
  let st := store s in
  let patchedName :=
    patchedNameOf (deref st cls)
                  (getBodyByShorthand tg (parentType (deref st classname)) code) in
  mkState (patch st cls patchedName code)
          (validated s ++ [cls] ++ kept)
          (troubles s ++ [(names st replaced, patchedName)]).

(** The resolver written from the decision table. *)
Definition resolveByPriority (tg : list Group) (classname : Ref) (s : State) (cls : Ref)
    (sameVariantAndValue : list Ref) : State :=
  let st := store s in
  let f := flagsOf (parentType (deref st classname)) (map (deref st) sameVariantAndValue) in
  match decisionOf f with
  | MergeAll => mergeInto tg classname s cls "all" sameVariantAndValue []
  | MergeAxis code | MergeSide code =>
      mergeInto tg classname s cls code
                (filterCodes st (mergedCodes code) sameVariantAndValue)
                (filterCodes st (keptCodes code) sameVariantAndValue)
  | KeepAll => push s sameVariantAndValue
  end.

(** ** Directional coverage

    Modelled from the spec: the fully expanded direction set of a directional
    code in a family of sides (spec, sections 3 and 8); the rule itself has
    no such function. *)
Definition expand (code : string) : list string :=
  if String.eqb code "all" then ["t"; "r"; "b"; "l"]
  else if String.eqb code "x" then ["l"; "r"]
  else if String.eqb code "y" then ["t"; "b"]
  else [code].

(** The (family, variants, value, side) quadruples that a list of classes styles. *)
Definition styled (classes : list ClassDescriptor) : list (string * string * string * string) :=
  flat_map (fun c => map (fun side => (parentType c, variants c, value c, side))
                         (expand (shorthand c)))
           classes.

(** [precedes l x y]: some occurrence of [x] in [l] is followed by [y]. *)
Fixpoint precedes (l : list Ref) (x y : Ref) : bool :=
  match l with
  | [] => false
  | z :: rest => (Nat.eqb z x && existsb (Nat.eqb y) rest) || precedes rest x y
  end.

(** [r] stands at its original position among the output descriptors: it
    comes before another output descriptor exactly when it did in [parsed]. *)
Definition keepsPosition (s : State) (r : Ref) : Prop :=
  forall r', In r' (validated s) -> r' <> r ->
    precedes (validated s) r r' = Nat.ltb r r'.

(** ** A sample taxonomy and sample collaborators

    [config/groups.js], [util/attr.js], [util/groupMethods.js] and
    [util/ast.js] are other files of the plugin.  The samples below follow
    the Tailwind CSS class names and serve the concrete runs of this file. *)

Definition box (b : string) : list Entry :=
  [ mkEntry "all" b; mkEntry "x" (b +:+ "x"); mkEntry "y" (b +:+ "y");
    mkEntry "t" (b +:+ "t"); mkEntry "r" (b +:+ "r");
    mkEntry "b" (b +:+ "b"); mkEntry "l" (b +:+ "l") ].

(** Modelled from the spec: the filtered taxonomy, for three of its families. *)
Definition sampleGroups : list Group :=
  [ mkGroup "Spacing" [ mkFamily "Padding" (box "p"); mkFamily "Margin" (box "m") ];
    mkGroup "Borders"
      [ mkFamily "Border Radius"
          [ mkEntry "all" "rounded";
            mkEntry "t" "rounded-t"; mkEntry "r" "rounded-r";
            mkEntry "b" "rounded-b"; mkEntry "l" "rounded-l";
            mkEntry "tl" "rounded-tl"; mkEntry "tr" "rounded-tr";
            mkEntry "br" "rounded-br"; mkEntry "bl" "rounded-bl" ] ] ].

(** Modelled from the spec: the token extractor on a single-line segment,
    which splits at each whitespace character. *)
Fixpoint sampleSplit (s : string) : list string :=
  match s with
  | EmptyString => [""]
  | String c rest =>
      if isSpace c then "" :: sampleSplit rest
      else match sampleSplit rest with
           | w :: ws => String c w :: ws
           | [] => [String c ""]
           end
  end.

Fixpoint sampleIsSingleLine (s : string) : bool :=
  match s with
  | EmptyString => true
  | String c rest => negb (Nat.eqb (nat_of_ascii c) 10) && sampleIsSingleLine rest
  end.

(** The entries of a taxonomy with their family. *)
Definition entriesOf (tg : list Group) : list (string * Entry) :=
  flat_map (fun g => flat_map (fun fam => map (fun e => (f_type fam, e)) (f_members fam))
                              (g_members g)) tg.

(** Modelled from the spec: the classname parser, for class names without
    variants and sign, of the form body-value; the longest body wins and a
    name that no body matches has the empty [parentType]. *)
Definition sampleParse (className : string) (tg : list Group) (index : nat) : ClassDescriptor :=
  let matching :=
    List.filter (fun fe => String.prefix (e_body (snd fe) +:+ "-") className) (entriesOf tg) in
  let best :=
    fold_left (fun acc fe =>
                 match acc with
                 | Some fe' =>
                     if Nat.ltb (String.length (e_body (snd fe'))) (String.length (e_body (snd fe)))
                     then Some fe else acc
                 | None => Some fe
                 end) matching None in
  match best with
  | Some fe =>
      let body := e_body (snd fe) in
      mkClass className "" (fst fe)
              (substring (String.length body + 1)
                         (String.length className - (String.length body + 1)) className)
              (e_shorthand (snd fe)) "" ""
  | None => mkClass className "" "" "" "" "" ""
  end.

(** Modelled from the spec: the text around the class names inside the
    source text of a template element. *)
Fixpoint samplePrefix (txt raw : string) : string :=
  if String.prefix raw txt then ""
  else match txt with
       | EmptyString => ""
       | String c rest => String c (samplePrefix rest raw)
       end.

Definition sampleSuffix (txt raw : string) : string :=
  let skip := String.length (samplePrefix txt raw) + String.length raw in
  substring skip (String.length txt - skip) txt.

Definition sampleCollaborators : Collaborators :=
  {| getClassNamesFromAttribute := fun raw trimmed => sampleSplit (if trimmed then trim raw else raw);
     isSingleLine := sampleIsSingleLine;
     parseClassname := sampleParse;
     getTemplateElementPrefix := samplePrefix;
     getTemplateElementSuffix := sampleSuffix |}.

(** A run of the rule on sample class names. *)
Definition sampleRun (classNames : string) : option Outcome :=
  @analyse sampleCollaborators sampleGroups (mkSegment classNames 1 1 "" "" true).

(** ** Statements about the resolver *)

(** The code that a decision merges into. *)
Definition codeOf (d : Decision) : option string :=
  match d with
  | MergeAll => Some "all"
  | MergeAxis code | MergeSide code => Some code
  | KeepAll => None
  end.

(** The resolver would treat an empty body as "cannot merge further": when
    the body of the code it decides on is empty, it keeps every member. *)
Definition treatsEmptyBodyAsNoMerge (tg : list Group) (classname : Ref) (s : State)
    (cls : Ref) (sameVariantAndValue : list Ref) : Prop :=
  let pty := parentType (deref (store s) classname) in
  forall code,
    codeOf (decisionOf (flagsOf pty (map (deref (store s)) sameVariantAndValue))) = Some code ->
    getBodyByShorthand tg pty code = "" ->
    resolve tg classname s cls sameVariantAndValue = push s sameVariantAndValue.

(** ** Statements about the reports *)

(** The message data of a report, and the message data that an element of
    [troubles] gives. *)
Definition headline (r : Report) : string * string := (r_classnames r, r_shorthand r).
Definition headlineOf (issue : Trouble) : string * string :=
  (join ", " (fst issue), snd issue).

(** ** One candidate set, on values

    The grouper hands each candidate set to the resolver once.  [visitGroup]
    is what this visit does, read on the descriptors of the set: the
    descriptors it pushes to [validated], as they are once the representative
    (the first member) is patched, and the element it pushes to [troubles]. *)

Definition sameTriple (a b : ClassDescriptor) : bool :=
  String.eqb (parentType a) (parentType b)
  && String.eqb (variants a) (variants b)
  && String.eqb (value a) (value b).

(** The candidate set of [cls]: the descriptors of [parsed] with its
    [parentType], [variants] and [value]. *)
Definition members (parsed : Store) (cls : Ref) : list Ref :=
  List.filter (fun r => sameTriple (deref parsed r) (deref parsed cls))
              (seq 0 (length parsed)).

Definition patched (c : ClassDescriptor) (patchedName code : string) : ClassDescriptor :=
  mkClass patchedName (variants c) (parentType c) (value c) code (leading c) (trailing c).

Definition byCodes (codes : list string) (arr : list ClassDescriptor) : list ClassDescriptor :=
  List.filter (fun c => includes codes (shorthand c)) arr.

Definition visitGroup (tg : list Group) (set : list ClassDescriptor)
    : list ClassDescriptor * list Trouble :=
  match set with
  | [] => ([], [])
  | [c] => ([c], [])
  | c :: rest =>
      let merged code := patched c (patchedNameOf c (getBodyByShorthand tg (parentType c) code)) code in
      match decisionOf (flagsOf (parentType c) set) with
      | MergeAll => ([merged "all"], [(map name set, name (merged "all"))])
      | MergeAxis code | MergeSide code =>
          (merged code
             :: (if includes (keptCodes code) (shorthand c) then [merged code] else [])
             ++ byCodes (keptCodes code) rest,
           [(map name (byCodes (mergedCodes code) set), name (merged code))])
      | KeepAll => (set, [])
      end
  end.

(** The fields that the rule never writes. *)
Definition sameFrame (a b : ClassDescriptor) : Prop :=
  parentType a = parentType b /\ variants a = variants b /\ value a = value b
  /\ leading a = leading b /\ trailing a = trailing b.

Definition frame (parsed st : Store) : Prop :=
  length st = length parsed /\ forall r, sameFrame (deref st r) (deref parsed r).

Definition isPassthrough (parsed : Store) (r : Ref) : bool :=
  String.eqb (parentType (deref parsed r)) "".

Definition keyOf (c : ClassDescriptor) : string := variants c +:+ value c.

(** ** Invariants of the grouper *)

(** [r] has not been reached: its descriptor is as parsed and it has not
    been pushed to [validated]. *)
Definition untouched (parsed : Store) (s : State) (r : Ref) : Prop :=
  deref (store s) r = deref parsed r /\ ~ In r (validated s).

(** A candidate set is either absent from [validated] or there as its visit
    left it. *)
Definition settled (tg : list Group) (parsed : Store) (s : State) : Prop :=
  forall cls, cls < length parsed -> parentType (deref parsed cls) <> "" ->
    let sub := List.filter (fun r => sameTriple (deref parsed r) (deref parsed cls))
                           (validated s) in
    sub = []
    \/ map (deref (store s)) sub = fst (visitGroup tg (map (deref parsed) (members parsed cls))).

(** Each element of [troubles] comes from the visit of one candidate set. *)
Definition explained (tg : list Group) (parsed : Store) (s : State) : Prop :=
  forall t, In t (troubles s) ->
    exists cls, cls < length parsed /\ parentType (deref parsed cls) <> ""
                /\ In t (snd (visitGroup tg (map (deref parsed) (members parsed cls)))).

Record Common (tg : list Group) (parsed : Store) (s : State) : Prop := mkCommon {
  c_frame : frame parsed (store s);
  c_bound : forall r, In r (validated s) -> r < length parsed;
  c_pass : forall r, parentType (deref parsed r) = "" -> deref (store s) r = deref parsed r;
  c_settled : settled tg parsed s;
  c_explained : explained tg parsed s
}.

(** The invariant of [parsed.forEach] before the element of index [k]. *)
Definition outerInv (tg : list Group) (parsed : Store) (k : nat)
    (acc : State * list string) : Prop :=
  Common tg parsed (fst acc)
  /\ (forall r, r < length parsed -> parentType (deref parsed r) <> "" ->
        ~ In (parentType (deref parsed r)) (snd acc) -> untouched parsed (fst acc) r)
  /\ List.filter (isPassthrough parsed) (validated (fst acc))
     = List.filter (isPassthrough parsed) (seq 0 k).

(** The invariant of [sameType.forEach] for the family [family], before the
    element of index [j] of [parsed]. *)
Definition innerInv (tg : list Group) (parsed : Store) (family : string)
    (checkedGroups : list string) (passed : list Ref) (j : nat)
    (acc : State * list string) : Prop :=
  Common tg parsed (fst acc)
  /\ (forall r, r < length parsed -> parentType (deref parsed r) <> "" ->
        parentType (deref parsed r) <> family ->
        ~ In (parentType (deref parsed r)) checkedGroups -> untouched parsed (fst acc) r)
  /\ (forall r, r < length parsed -> parentType (deref parsed r) = family ->
        ~ In (keyOf (deref parsed r)) (snd acc) -> untouched parsed (fst acc) r)
  /\ (forall r, r < j -> parentType (deref parsed r) = family ->
        In (keyOf (deref parsed r)) (snd acc))
  /\ List.filter (isPassthrough parsed) (validated (fst acc)) = passed.

(** ** The flags as a function of the codes present

    The flags of a candidate set depend on the set only through the
    directional codes that occur in it.  [flagsBy corners p] are the flags of
    a set in which the code [k] occurs when [p k] holds. *)

Definition codes11 : list string :=
  ["all"; "x"; "y"; "t"; "r"; "b"; "l"; "tl"; "tr"; "br"; "bl"].

Definition flagsBy (corners : bool) (p : string -> bool) : Flags :=
  let hasTL := corners && (p "tl" || (p "t" || (p "all" || false))) in
  let hasTR := corners && (p "tr" || (p "t" || (p "all" || false))) in
  let hasBR := corners && (p "br" || (p "b" || (p "all" || false))) in
  let hasBL := corners && (p "bl" || (p "b" || (p "all" || false))) in
  let hasT := p "t" || (hasTL && hasTR) in
  let hasR := p "r" || (hasTR && hasBR) in
  let hasB := p "b" || (hasBL && hasBR) in
  let hasL := p "l" || (hasTL && hasBL) in
  let hasX := p "x" || (hasL && hasR) in
  let hasY := p "y" || (hasT && hasB) in
  let hasAll := p "all" || (hasY && hasX) in
  mkFlags corners hasTL hasTR hasBR hasBL hasT hasR hasB hasL hasX hasY hasAll.

(** A decision reports nothing: it is not the merge of a whole set, and no
    code that it would replace is present. *)
Definition cleanDecision (d : Decision) (p : string -> bool) : bool :=
  match d with
  | MergeAll => false
  | MergeAxis code | MergeSide code => negb (existsb p (mergedCodes code))
  | KeepAll => true
  end.

(** The codes present once a set has been visited, and whether a second
    visit is clean; [hq] tests the code of the representative and [pr] the
    codes present in the other members. *)
Definition presentAfter (code : string) (pr : string -> bool) : string -> bool :=
  fun k => String.eqb code k || (includes (keptCodes code) k && pr k).

Definition secondVisitClean (corners : bool) (hq pr : string -> bool) : bool :=
  match decisionOf (flagsBy corners (fun k => hq k || pr k)) with
  | MergeAxis code | MergeSide code =>
      cleanDecision (decisionOf (flagsBy corners (presentAfter code pr))) (presentAfter code pr)
  | MergeAll | KeepAll => true
  end.

(** A table of booleans read as a function of the codes. *)
Fixpoint lookupCode (codes : list string) (bs : list bool) (k : string) : bool :=
  match codes, bs with
  | c :: codes', b :: bs' => if String.eqb c k then b else lookupCode codes' bs' k
  | _, _ => false
  end.

Fixpoint allBools (n : nat) : list (list bool) :=
  match n with
  | 0 => [[]]
  | S m => map (cons true) (allBools m) ++ map (cons false) (allBools m)
  end.

(** The second visit is clean for every representative and every table. *)
Definition secondVisitCleanEverywhere : bool :=
  forallb (fun corners =>
    forallb (fun h =>
      forallb (fun bs => secondVisitClean corners (String.eqb h) (lookupCode codes11 bs))
              (allBools 11))
            ("" :: codes11))
          [true; false].

(** ** Three corners of a family with corners, in every order *)

Definition cornerCodes : list string := ["tl"; "tr"; "br"; "bl"].

Definition cornerClass (code : string) : ClassDescriptor :=
  mkClass ("rounded-" +:+ code +:+ "-lg") "" "Border Radius" "lg" code "" "".

(** The 24 lists of three distinct corners. *)
Definition threeCorners : list (list string) :=
  flat_map (fun a =>
    flat_map (fun b =>
      flat_map (fun c =>
        if String.eqb a b || String.eqb a c || String.eqb b c then [] else [[a; b; c]])
        cornerCodes) cornerCodes) cornerCodes.

(** The side that two of the three corners share, top, right, bottom, left
    being tried in this order, and the corner that is not on it. *)
Definition sharedSide (corners : list string) : string * string :=
  let has := includes corners in
  let other a b := List.filter (fun c => negb (String.eqb c a || String.eqb c b)) corners in
  if has "tl" && has "tr" then ("t", hd "" (other "tl" "tr"))
  else if has "tr" && has "br" then ("r", hd "" (other "tr" "br"))
  else if has "bl" && has "br" then ("b", hd "" (other "bl" "br"))
  else ("l", hd "" (other "tl" "bl")).

(** The output names for three corners are the side and the remaining corner. *)
Definition threeCornersMerged (corners : list string) : bool :=
  let out := map name (validatedClasses (validate sampleGroups (map cornerClass corners))) in
  bool_decide (out = ["rounded-" +:+ fst (sharedSide corners) +:+ "-lg";
                      "rounded-" +:+ snd (sharedSide corners) +:+ "-lg"]).

(** ** The visitors (lines 335-367)

    [valid] is what [astUtil.isValidJSXAttribute] or
    [astUtil.isValidVueAttribute] answers for the attribute, [value] and
    [range] what [astUtil.extractValueFromNode] and
    [astUtil.extractRangeFromNode] give for it.  [calleeName] and [tagName]
    are [node.callee.name] and [node.tag.name], which are undefined ([None])
    when the callee or the tag is not an identifier. *)
Inductive Node :=
| JSXAttribute (valid : bool) (value : string) (range : Z * Z)
| CallExpression (calleeName : option string) (arguments : list Arg)
| TaggedTemplateExpression (tagName : option string) (quasi : Arg)
| VAttribute (valid : bool) (value : string) (range : Z * Z).

(** [name === s] for a name that may be undefined. *)
Definition nameIs (name : option string) (s : string) : bool :=
  match name with
  | Some n => String.eqb n s
  | None => false
  end.

(** The visitor of one node, for the options [callees] and [tags]. *)
Definition visit `{Collaborators} (tg : list Group) (callees tags : list string)
    (node : Node) : list Report :=
  match node with
  | JSXAttribute valid value range | VAttribute valid value range =>
      if negb valid then [] else parseForShorthandCandidates tg value range None
  | CallExpression calleeName arguments =>
      if negb (existsb (nameIs calleeName) callees) then []
      else flat_map (fun arg => parseForShorthandCandidates tg "" (0, 0)%Z (Some arg)) arguments
  | TaggedTemplateExpression tagName quasi =>
      if negb (existsb (nameIs tagName) tags) then []
      else parseForShorthandCandidates tg "" (0, 0)%Z (Some quasi)
  end.

(** The ranges that the fixes of an argument can replace: the inside of each
    string literal and each template element that the switch reaches. *)
Fixpoint fixRanges (arg : Arg) : list (Z * Z) :=
  match arg with
  | TemplateLiteral expressions quasis =>
      flat_map fixRanges expressions ++ flat_map fixRanges quasis
  | ConditionalExpression consequent alternate =>
      fixRanges consequent ++ fixRanges alternate
  | LogicalExpression right_ => fixRanges right_
  | Literal _ range => [(fst range + 1, snd range - 1)%Z]
  | TemplateElement _ range _ => [range]
  end.

Definition nodeFixRanges (node : Node) : list (Z * Z) :=
  match node with
  | JSXAttribute _ _ range | VAttribute _ _ range => [(fst range + 1, snd range - 1)%Z]
  | CallExpression _ arguments => flat_map fixRanges arguments
  | TaggedTemplateExpression _ quasi => fixRanges quasi
  end.

(** ** What the run writes *)

(** Each descriptor is as parsed, or bears the patched name of an element
    of [troubles]. *)
Definition renamedByMerge (parsed : Store) (s : State) : Prop :=
  forall r, deref (store s) r = deref parsed r
            \/ exists t, In t (troubles s) /\ name (deref (store s) r) = snd t.

(** ** The size of a visited set *)

(** When the representative of a merge is itself among the codes to keep,
    some other member is not: [hq] tests the code of the representative and
    [pr] the codes present in the other members. *)
Definition keptLeavesOne (corners : bool) (hq pr : string -> bool) : bool :=
  match decisionOf (flagsBy corners (fun k => hq k || pr k)) with
  | MergeAxis code | MergeSide code =>
      negb (existsb hq (keptCodes code))
      || existsb (fun k => negb (includes (keptCodes code) k) && pr k) codes11
  | MergeAll | KeepAll => true
  end.

Definition keptLeavesOneEverywhere : bool :=
  forallb (fun corners =>
    forallb (fun h =>
      forallb (fun bs => keptLeavesOne corners (String.eqb h) (lookupCode codes11 bs))
              (allBools 11))
            ("" :: codes11))
          [true; false].

(** ** The place of a passthrough descriptor in the output *)

(** [reachedBy parsed k r]: at an index below [k] the outer loop has met [r]
    itself or, when [r] has a family, a member of this family.  This is the
    step at which [r] is pushed to [validated], if it is pushed at all. *)
Definition reachedBy (parsed : Store) (k : nat) (r : Ref) : bool :=
  existsb (fun r0 => String.eqb (parentType (deref parsed r0)) (parentType (deref parsed r))
                     && (negb (isPassthrough parsed r) || Nat.eqb r0 r))
          (seq 0 k).

(** [hoisted parsed r r']: [r'] has a family of which a member stands before
    [r] in [parsed]; the family is output where its first member stands. *)
Definition hoisted (parsed : Store) (r r' : Ref) : bool :=
  negb (isPassthrough parsed r')
  && existsb (fun r0 => String.eqb (parentType (deref parsed r0)) (parentType (deref parsed r')))
             (seq 0 r).

(** [r] stands at its original position among the output descriptors, but
    for the members of the families hoisted before it: it comes before
    another output descriptor exactly when it did in [parsed] and this
    descriptor is not hoisted, and behind it otherwise. *)
Definition keepsPositionUnlessHoisted (parsed : Store) (s : State) (r : Ref) : Prop :=
  forall r', In r' (validated s) -> r' <> r ->
    precedes (validated s) r r' = Nat.ltb r r' && negb (hoisted parsed r r')
    /\ precedes (validated s) r' r = negb (Nat.ltb r r' && negb (hoisted parsed r r')).

(** The descriptors of [l] stand in the order in which the outer loop
    reaches them. *)
Definition inPushOrder (parsed : Store) (l : list Ref) : Prop :=
  forall i j x y, i < j -> l !! i = Some x -> l !! j = Some y ->
    forall n, reachedBy parsed n y = true -> reachedBy parsed n x = true.

(** The invariant of [parsed.forEach] on the order of [validated], before
    the element of index [k]. *)
Definition orderInv (parsed : Store) (k : nat) (acc : State * list string) : Prop :=
  (forall r, r < k -> parentType (deref parsed r) <> "" ->
     In (parentType (deref parsed r)) (snd acc))
  /\ (forall r, In r (validated (fst acc)) -> reachedBy parsed k r = true)
  /\ inPushOrder parsed (validated (fst acc)).

(** ** The nodes that the rule handles

    A valid attribute, a call whose callee name is one of [callees], a
    tagged template whose tag name is one of [tags]. *)
Definition handled (callees tags : list string) (node : Node) : Prop :=
  match node with
  | JSXAttribute valid _ _ | VAttribute valid _ _ => valid = true
  | CallExpression calleeName _ => exists n, calleeName = Some n /\ In n callees
  | TaggedTemplateExpression tagName _ => exists n, tagName = Some n /\ In n tags
  end.

(** * Properties *)

(** A run on concrete class names is settled by evaluation. *)
Ltac evaluate_run := eexists; split; [vm_compute; reflexivity|].

(** ** The resolver and its priority order *)

Lemma flagsOf_hasAll pty same :
  hasAll (flagsOf pty same)
  = someIs "all" same || (hasY (flagsOf pty same) && hasX (flagsOf pty same)).
Proof. reflexivity. Qed.

Lemma resolve_by_priority tg classname s cls same :
  resolve tg classname s cls same = resolveByPriority tg classname s cls same.
Proof.
  unfold resolve, resolveByPriority, decisionOf, mergeInto, sideOf, push.
  pose proof (flagsOf_hasAll (parentType (deref (store s) classname))
                             (map (deref (store s)) same)) as Hall.
  destruct (flagsOf _ _) as [sc tl tr br bl t r b l x y all]; simpl in *.
  destruct all, x, y; simpl;
    try (destruct (someIs "all" _); discriminate);
    try reflexivity;
    destruct sc; simpl; try reflexivity;
    destruct t; simpl; try reflexivity;
    destruct r; simpl; try reflexivity;
    destruct b; simpl; try reflexivity;
    destruct l; simpl; reflexivity.
Qed.

(** ** The taxonomy filter *)

(** The filtered taxonomy has only the families of [targetProperties]. *)
Lemma targetGroups_allowed defaultGroups g fam :
  In g (targetGroups defaultGroups) -> In fam (g_members g) ->
  In (g_type g) (map fst targetProperties)
  /\ In (f_type fam) (targetPropertiesOf (g_type g)).
Proof.
  unfold targetGroups. intros Hg Hfam.
  apply in_map_iff in Hg as (g0 & <- & Hg0). cbn [g_type g_members] in *.
  apply filter_In in Hg0 as [_ Hg0]. apply filter_In in Hfam as [_ Hfam].
  unfold includes in *. apply existsb_exists in Hg0 as (x & Hx & Hxe).
  apply existsb_exists in Hfam as (y & Hy & Hye).
  apply String.eqb_eq in Hxe, Hye. subst. now split.
Qed.

(** ** The shorthand lookup *)

Lemma find_none_iff {A} (p : A -> bool) (l : list A) :
  find p l = None <-> forall x, In x l -> p x = false.
Proof.
  split; [apply find_none|].
  induction l as [|a l IH]; simpl; intros Hall; [reflexivity|].
  rewrite (Hall a (or_introl eq_refl)). apply IH. intros x Hx. apply Hall. now right.
Qed.

Lemma getBodyByShorthand_absent tg pty sh :
  (forall g fam e, In g tg -> In fam (g_members g) -> f_type fam = pty ->
                   In e (f_members fam) -> e_shorthand e <> sh) ->
  getBodyByShorthand tg pty sh = "".
Proof.
  intros Habs. unfold getBodyByShorthand.
  destruct (find _ tg) as [mainGroup|] eqn:Hg; [|reflexivity].
  apply find_some in Hg as [Hin _].
  destruct (find _ (g_members mainGroup)) as [typeGroup|] eqn:Hf; [|reflexivity].
  apply find_some in Hf as [Hfin Hty]. apply String.eqb_eq in Hty.
  destruct (find _ (f_members typeGroup)) as [type|] eqn:He; [|reflexivity].
  apply find_some in He as [Hein Hsh]. apply String.eqb_eq in Hsh.
  exfalso. exact (Habs mainGroup typeGroup type Hin Hfin Hty Hein Hsh).
Qed.

(** The code that the resolver merges into, if any. *)
Lemma resolve_merges tg classname s cls same :
  let st := store s in
  let pty := parentType (deref st classname) in
  match decisionOf (flagsOf pty (map (deref st) same)) with
  | KeepAll => resolve tg classname s cls same = push s same
  | MergeAll =>
      resolve tg classname s cls same = mergeInto tg classname s cls "all" same []
  | MergeAxis code | MergeSide code =>
      resolve tg classname s cls same
      = mergeInto tg classname s cls code (filterCodes st (mergedCodes code) same)
                  (filterCodes st (keptCodes code) same)
  end.
Proof.
  simpl. rewrite resolve_by_priority. unfold resolveByPriority.
  destruct (decisionOf _); reflexivity.
Qed.

(** Where no entry of the family has the code that the resolver has decided
    on, the lookup returns the empty string and the merge is made all the
    same: none of the three call sites (lines 234, 242, 266) tests the body,
    and the patched name is built on the empty body. *)
Lemma lookup_absent_still_merges tg classname s cls sameVariantAndValue code :
  let st := store s in
  let pty := parentType (deref st classname) in
  codeOf (decisionOf (flagsOf pty (map (deref st) sameVariantAndValue))) = Some code ->
  (forall g fam e, In g tg -> In fam (g_members g) -> f_type fam = pty ->
                   In e (f_members fam) -> e_shorthand e <> code) ->
  getBodyByShorthand tg pty code = ""
  /\ exists replaced kept,
       resolve tg classname s cls sameVariantAndValue
       = mkState (patch st cls (patchedNameOf (deref st cls) "") code)
                 (validated s ++ [cls] ++ kept)
                 (troubles s ++ [(names st replaced, patchedNameOf (deref st cls) "")]).
Proof.
  intros st pty Hcode Habs.
  pose proof (getBodyByShorthand_absent tg pty code Habs) as Hbody.
  split; [exact Hbody|].
  pose proof (resolve_merges tg classname s cls sameVariantAndValue) as Hres.
  simpl in Hres. fold st in Hres. fold pty in Hres.
  destruct (decisionOf _) as [|c|c|]; simpl in Hcode; inversion Hcode; subst;
    rewrite Hres; unfold mergeInto; fold st; fold pty; rewrite Hbody;
    eexists _, _; reflexivity.
Qed.

(** C9: the lookup returns the empty string for a code that the family does
    not have, but the resolver does not treat the empty string as "cannot
    merge further".  No entry of the family Border Radius has the code [x];
    rounded-l-lg and rounded-r-lg derive the axis [x] and are merged into
    the class "-lg", which the report and the fix carry.  The pair
    rounded-t-lg rounded-b-lg, whose four corners are derived, is merged into
    rounded-lg. *)
Theorem empty_body_is_merged :
  getBodyByShorthand sampleGroups "Border Radius" "x" = ""
  /\ ~ treatsEmptyBodyAsNoMerge sampleGroups 0
         (mkState [mkClass "rounded-l-lg" "" "Border Radius" "lg" "l" "" "";
                   mkClass "rounded-r-lg" "" "Border Radius" "lg" "r" "" ""] [] [])
         0 [0; 1]
  /\ (exists o, sampleRun "rounded-l-lg rounded-r-lg" = Some o
                /\ troubles (o_state o) = [(["rounded-l-lg"; "rounded-r-lg"], "-lg")]
                /\ map name (validatedClasses (o_state o)) = ["-lg"]
                /\ map r_shorthand (o_reports o) = ["-lg"]
                /\ map r_text (o_reports o) = ["-lg"])
  /\ (exists o, sampleRun "rounded-t-lg rounded-b-lg" = Some o
                /\ troubles (o_state o) = [(["rounded-t-lg"; "rounded-b-lg"], "rounded-lg")]
                /\ map name (validatedClasses (o_state o)) = ["rounded-lg"]
                /\ map r_text (o_reports o) = ["rounded-lg"]).
Proof.
  split; [reflexivity|]. split; [|split].
  - intros Hno. specialize (Hno "x" eq_refl eq_refl). vm_compute in Hno. discriminate.
  - evaluate_run. repeat split.
  - evaluate_run. repeat split.
Qed.

(** ** The early return *)

(** The tokens of a multi-line segment: the whitespace at both ends is set
    aside and one class name is left. *)
Example tokens_set_aside :
  let classNames := [newline +:+ "  "; "p-3"; newline] in
  shiftSpaces classNames = (Some (newline +:+ "  "), ["p-3"; newline])
  /\ popSpaces (snd (shiftSpaces classNames)) = (["p-3"], Some newline)
  /\ shiftSpaces [] = (None, []) /\ popSpaces [] = ([], None).
Proof. repeat split. Qed.

(** C10: when at most one class name is left once the whitespace tokens at
    both ends of a multi-line segment are set aside, the analysis returns at
    once: nothing is parsed and nothing is reported. *)
Theorem at_most_one_class_returns `{Collaborators} tg seg :
  length (t_classNames (tokensOf seg)) <= 1 ->
  analyse tg seg = None /\ reportsOf tg seg = [].
Proof.
  intros Hlen. unfold reportsOf, analyse.
  apply Nat.leb_le in Hlen. rewrite Hlen. split; reflexivity.
Qed.

Lemma at_most_one_class_returns_witness :
  length (t_classNames (@tokensOf sampleCollaborators (mkSegment "p-3" 1 1 "" "" true))) <= 1
  /\ @analyse sampleCollaborators sampleGroups (mkSegment "p-3" 1 1 "" "" true) = None
  /\ @reportsOf sampleCollaborators sampleGroups (mkSegment "p-3" 1 1 "" "" true) = [].
Proof.
  split; [vm_compute; lia|].
  apply (@at_most_one_class_returns sampleCollaborators sampleGroups
           (mkSegment "p-3" 1 1 "" "" true)).
  vm_compute; lia.
Defined.

(** ** Runs on sample class names *)

(** The scenario of the spec: the first member is one of the merged corners. *)
Lemma three_corners_scenario :
  exists o, sampleRun "rounded-tl-lg rounded-tr-lg rounded-bl-lg" = Some o
            /\ map name (validatedClasses (o_state o)) = ["rounded-t-lg"; "rounded-bl-lg"]
            /\ troubles (o_state o) = [(["rounded-tl-lg"; "rounded-tr-lg"], "rounded-t-lg")].
Proof. evaluate_run. split; reflexivity. Qed.

(** C5 fails on the code: with the same three corners given in the order
    bottom-left, top-left, top-right, the representative is the first member,
    which is the corner to keep; it is renamed and pushed twice, so the
    output is rounded-t-lg twice and rounded-bl-lg is lost. *)
Theorem three_corners_kept_corner_first :
  exists o, sampleRun "rounded-bl-lg rounded-tl-lg rounded-tr-lg" = Some o
            /\ validated (o_state o) = [0; 0]
            /\ map name (validatedClasses (o_state o)) = ["rounded-t-lg"; "rounded-t-lg"]
            /\ troubles (o_state o) = [(["rounded-tl-lg"; "rounded-tr-lg"], "rounded-t-lg")]
            /\ map r_text (o_reports o) = ["rounded-t-lg rounded-t-lg"].
Proof. evaluate_run. repeat split. Qed.

(** Among the 24 orders of three corners, the output is the side and the
    remaining corner exactly when the first member is not the remaining
    corner. *)
Lemma three_corners_every_order :
  length threeCorners = 24
  /\ forallb (fun corners =>
                Bool.eqb (threeCornersMerged corners)
                         (negb (String.eqb (hd "" corners) (snd (sharedSide corners)))))
             threeCorners = true.
Proof. split; vm_compute; reflexivity. Qed.

(** C4 fails on the code: in pt-3 pl-3 pr-3 the representative of the merge
    of the axis [x] is pt-3, the member to keep; the output is px-3 twice,
    and the top side, styled by the input, is no longer styled. *)
Theorem axis_merge_loses_kept_side :
  exists o, sampleRun "pt-3 pl-3 pr-3" = Some o
            /\ map name (validatedClasses (o_state o)) = ["px-3"; "px-3"]
            /\ map r_text (o_reports o) = ["px-3 px-3"]
            /\ In ("Padding", "", "3", "t")
                  (styled (@parsedOf sampleCollaborators sampleGroups
                                     (mkSegment "pt-3 pl-3 pr-3" 1 1 "" "" true)))
            /\ ~ In ("Padding", "", "3", "t") (styled (validatedClasses (o_state o))).
Proof.
  evaluate_run.
  split; [reflexivity|]. split; [reflexivity|]. split.
  - vm_compute. left. reflexivity.
  - vm_compute. intros [H|[H|[H|[H|[]]]]]; discriminate.
Qed.

(** A member that is neither replaced nor kept is dropped as well: the side
    rounded-l-lg disappears beside the merge of the two top corners. *)
Lemma side_merge_drops_other_side :
  map name (validatedClasses
              (validate sampleGroups
                 [mkClass "rounded-tl-lg" "" "Border Radius" "lg" "tl" "" "";
                  mkClass "rounded-tr-lg" "" "Border Radius" "lg" "tr" "" "";
                  mkClass "rounded-l-lg" "" "Border Radius" "lg" "l" "" ""]))
  = ["rounded-t-lg"].
Proof. reflexivity. Qed.

(** C2 fails on the code: each report wraps [validatedClassNamesValue] in the
    prefix and the suffix once more, so with two merges inside a template
    element the second fix carries the delimiters twice. *)
Theorem second_fix_wraps_twice :
  @parseArg sampleCollaborators sampleGroups
     (TemplateElement "mt-1 mb-1 pt-2 pb-2" (10, 31)%Z "`mt-1 mb-1 pt-2 pb-2`")
  = [ mkReport "mt-1, mb-1" "my-1" (10, 31)%Z "`my-1 py-2`";
      mkReport "pt-2, pb-2" "py-2" (10, 31)%Z "``my-1 py-2``" ]
  /\ (exists o, @analyse sampleCollaborators sampleGroups
                   (mkSegment "mt-1 mb-1 pt-2 pb-2" 10 31 "`" "`" false) = Some o
                /\ o_value o = "my-1 py-2"
                /\ o_final o = "``my-1 py-2``").
Proof.
  split; [vm_compute; reflexivity|].
  evaluate_run. split; reflexivity.
Qed.

(** ** The reports *)

(** The final loop reports a prefix of the issues, and reports none when the
    value it starts from is the original text. *)
Lemma reportIssue_fold seg orig issues cur reports :
  exists n reports',
    snd (fold_left (reportIssue seg orig) issues (cur, reports)) = reports ++ reports'
    /\ map headline reports' = map headlineOf (take n issues)
    /\ (reports' <> [] -> orig <> cur).
Proof.
  revert cur reports. induction issues as [|issue rest IH]; intros cur reports.
  - exists 0, []. simpl. rewrite app_nil_r. repeat split. intros Hne. now destruct Hne.
  - simpl. unfold reportIssue at 2. simpl.
    destruct (String.eqb orig cur) eqn:Heq; simpl.
    + destruct (IH cur reports) as (n & reports' & Hsnd & Hmap & Hne).
      apply String.eqb_eq in Heq.
      destruct reports' as [|r reports'].
      * exists 0, []. rewrite Hsnd. repeat split. intros Hn. now destruct Hn.
      * exfalso. apply Hne; [discriminate|exact Heq].
    + destruct (IH (seg_prefix seg +:+ cur +:+ seg_suffix seg)
                   (reports ++ [mkReport (join ", " (fst issue)) (snd issue)
                                         (seg_start seg, seg_end seg)
                                         (seg_prefix seg +:+ cur +:+ seg_suffix seg)]))
        as (n & reports' & Hsnd & Hmap & _).
      exists (S n), (mkReport (join ", " (fst issue)) (snd issue)
                              (seg_start seg, seg_end seg)
                              (seg_prefix seg +:+ cur +:+ seg_suffix seg) :: reports').
      rewrite Hsnd, <- app_assoc. simpl. repeat split.
      * unfold headline at 1, headlineOf at 1. simpl. now rewrite Hmap.
      * intros _. now apply String.eqb_neq.
Qed.

Lemma issuesOf_spec s issue :
  In issue (issuesOf s) <-> In issue (troubles s) /\ fst issue <> [].
Proof.
  unfold issuesOf. rewrite filter_In. destruct (fst issue); simpl; split.
  - intros [_ Hf]. discriminate.
  - intros [_ Hne]. now destruct Hne.
  - intros [Hin _]. split; [exact Hin|discriminate].
  - intros [Hin _]. split; [exact Hin|reflexivity].
Qed.

Lemma in_take {A} (x : A) n l : In x (take n l) -> In x l.
Proof.
  revert l; induction n as [|n IH]; intros [|a l]; simpl; try tauto.
  intros [->|Hin]; [now left|right; now apply IH].
Qed.

(** C1: a finding is reported only for a merge whose list of subsumed names
    is not empty, and only if the reassembled text differs from the original
    text (trimmed when the segment is on a single line, as it is otherwise);
    when the texts are equal nothing is reported, and a merge with an empty
    list is never reported: the reports are those of a prefix of the merges
    with a non-empty list. *)
Theorem report_only_for_real_change `{Collaborators} tg seg o :
  analyse tg seg = Some o ->
  let original :=
    if isSingleLine (originalClassNamesValue seg)
    then trim (originalClassNamesValue seg) else originalClassNamesValue seg in
  (forall r, In r (o_reports o) ->
     exists issue, In issue (troubles (o_state o)) /\ fst issue <> []
                   /\ r_classnames r = join ", " (fst issue)
                   /\ r_shorthand r = snd issue
                   /\ o_value o <> original)
  /\ (o_value o = original -> o_reports o = [])
  /\ (exists n, map headline (o_reports o) = map headlineOf (take n (issuesOf (o_state o)))).
Proof.
  unfold analyse. destruct (Nat.leb _ 1); [discriminate|].
  intros Ho. inversion Ho; subst o; clear Ho. simpl.
  fold (originalPatchedOf seg).
  set (s := validate tg (parsedOf tg seg)).
  set (v := assemble _ _ _ s).
  destruct (reportIssue_fold seg (originalPatchedOf seg) (issuesOf s) v [])
    as (n & reports' & Hsnd & Hmap & Hne).
  rewrite Hsnd. simpl. split; [|split].
  - intros r Hr.
    assert (Hh : In (headline r) (map headlineOf (take n (issuesOf s)))).
    { rewrite <- Hmap. now apply in_map. }
    apply in_map_iff in Hh as (issue & Hhead & Hin).
    apply in_take, issuesOf_spec in Hin as [Hin Hnonempty].
    exists issue. unfold headline, headlineOf in Hhead. inversion Hhead.
    repeat split; auto.
    intros Hv. apply Hne; [intros ->; destruct Hr|]. now symmetry.
  - intros Hv. destruct reports' as [|r reports']; [reflexivity|].
    exfalso. apply Hne; [discriminate|]. now symmetry.
  - exists n. exact Hmap.
Qed.

Lemma report_only_for_real_change_witness :
  exists o, sampleRun "mt-3 mb-3" = Some o
            /\ map headline (o_reports o) = [("mt-3, mb-3", "my-3")]
            /\ (forall r, In r (o_reports o) ->
                  exists issue, In issue (troubles (o_state o)) /\ fst issue <> []
                                /\ r_classnames r = join ", " (fst issue)
                                /\ r_shorthand r = snd issue
                                /\ o_value o <> trim "mt-3 mb-3").
Proof.
  evaluate_run. split; [reflexivity|].
  apply (@report_only_for_real_change sampleCollaborators sampleGroups
           (mkSegment "mt-3 mb-3" 1 1 "" "" true)).
  vm_compute; reflexivity.
Defined.

(** ** Lists, references and the store *)

Lemma includes_In l s : includes l s = true <-> In s l.
Proof.
  unfold includes. rewrite existsb_exists. split.
  - intros (x & Hin & Heq). apply String.eqb_eq in Heq. now subst.
  - intros Hin. exists s. split; [exact Hin|apply String.eqb_refl].
Qed.

Lemma includes_not_In l s : includes l s = false <-> ~ In s l.
Proof.
  rewrite <- includes_In. destruct (includes l s); split; congruence.
Qed.

Lemma filter_filter {A} (f g : A -> bool) l :
  List.filter f (List.filter g l) = List.filter (fun x => g x && f x) l.
Proof.
  induction l as [|a l IH]; simpl; [reflexivity|].
  destruct (g a); simpl; [destruct (f a)|]; now rewrite IH.
Qed.

Lemma filter_map_comm {A B} (f : A -> B) (p : B -> bool) l :
  List.filter p (map f l) = map f (List.filter (fun x => p (f x)) l).
Proof.
  induction l as [|a l IH]; simpl; [reflexivity|].
  destruct (p (f a)); simpl; now rewrite IH.
Qed.

Lemma filter_none {A} (p : A -> bool) l :
  (forall x, In x l -> p x = false) -> List.filter p l = [].
Proof.
  induction l as [|a l IH]; simpl; intros Hall; [reflexivity|].
  rewrite (Hall a (or_introl eq_refl)). apply IH. intros x Hx. apply Hall. now right.
Qed.

Lemma filter_every {A} (p : A -> bool) l :
  (forall x, In x l -> p x = true) -> List.filter p l = l.
Proof.
  induction l as [|a l IH]; simpl; intros Hall; [reflexivity|].
  rewrite (Hall a (or_introl eq_refl)). f_equal. apply IH. intros x Hx. apply Hall. now right.
Qed.

Lemma fold_left_filter {A B} (f : A -> B -> A) (g : B -> bool) l a :
  fold_left f (List.filter g l) a = fold_left (fun a x => if g x then f a x else a) l a.
Proof.
  revert a. induction l as [|b l IH]; intros a; simpl; [reflexivity|].
  destruct (g b); simpl; apply IH.
Qed.

(** Induction on a loop over the indices [0 .. n-1]. *)
Lemma fold_seq_ind {A} (I : nat -> A -> Prop) (f : A -> nat -> A) a n :
  I 0 a ->
  (forall k acc, k < n -> I k acc -> I (S k) (f acc k)) ->
  I n (fold_left f (seq 0 n) a).
Proof.
  intros H0 Hstep. induction n as [|n IH]; [exact H0|].
  rewrite seq_S, fold_left_app. simpl. apply Hstep; [lia|].
  apply IH. intros k acc Hk. apply Hstep. lia.
Qed.

Lemma deref_patch_eq st cls nm code :
  cls < length st -> deref (patch st cls nm code) cls = patched (deref st cls) nm code.
Proof.
  intros Hlt. unfold deref, patch, patched.
  exact (list_lookup_total_alter_eq _ st cls Hlt).
Qed.

Lemma deref_patch_ne st cls nm code r :
  r <> cls -> deref (patch st cls nm code) r = deref st r.
Proof.
  intros Hne. unfold deref, patch.
  apply (list_lookup_total_alter_ne _ st cls r). intros Heq. now apply Hne.
Qed.

Lemma length_patch st cls nm code : length (patch st cls nm code) = length st.
Proof. unfold patch. apply length_alter. Qed.

Lemma sameFrame_refl c : sameFrame c c.
Proof. repeat split. Qed.

Lemma frame_refl parsed : frame parsed parsed.
Proof. split; [reflexivity|]. intros r. apply sameFrame_refl. Qed.

Lemma sameFrame_patch st cls nm code r :
  sameFrame (deref (patch st cls nm code) r) (deref st r).
Proof.
  unfold deref, patch.
  rewrite (list_lookup_total_alter _ st cls r).
  destruct (decide _) as [[-> _]|_]; repeat split.
Qed.

Lemma frame_patch parsed st cls nm code :
  frame parsed st -> frame parsed (patch st cls nm code).
Proof.
  intros [Hlen Hf]. split; [now rewrite length_patch|].
  intros r. specialize (Hf r). pose proof (sameFrame_patch st cls nm code r) as Hp.
  unfold sameFrame in *. intuition congruence.
Qed.

Lemma frame_sameTriple parsed st r1 r2 :
  frame parsed st ->
  sameTriple (deref st r1) (deref st r2) = sameTriple (deref parsed r1) (deref parsed r2).
Proof.
  intros [_ Hf]. unfold sameTriple.
  destruct (Hf r1) as (-> & -> & -> & _). destruct (Hf r2) as (-> & -> & -> & _).
  reflexivity.
Qed.

Lemma sameTriple_spec a b :
  sameTriple a b = true
  <-> parentType a = parentType b /\ variants a = variants b /\ value a = value b.
Proof.
  unfold sameTriple. rewrite !andb_true_iff, !String.eqb_eq. tauto.
Qed.

Lemma members_spec parsed cls r :
  In r (members parsed cls)
  <-> r < length parsed /\ sameTriple (deref parsed r) (deref parsed cls) = true.
Proof.
  unfold members. rewrite filter_In, in_seq. intuition lia.
Qed.

(** ** The resolver on references and the visit of a set on values *)

Lemma names_map st l : names st l = map name (map (deref st) l).
Proof. unfold names. now rewrite map_map. Qed.

Lemma filterCodes_byCodes st codes l :
  map (deref st) (filterCodes st codes l) = byCodes codes (map (deref st) l).
Proof. unfold filterCodes, byCodes. now rewrite filter_map_comm. Qed.

Lemma filterCodes_incl st codes l : incl (filterCodes st codes l) l.
Proof. unfold filterCodes. apply incl_filter. Qed.

Lemma map_deref_patch st cls nm code l :
  ~ In cls l -> map (deref (patch st cls nm code)) l = map (deref st) l.
Proof.
  intros Hnin. apply map_ext_in. intros r Hr. apply deref_patch_ne.
  intros ->. now apply Hnin.
Qed.

Lemma merge_pushed st cls rest nm code codes :
  ~ In cls rest -> cls < length st ->
  map (deref (patch st cls nm code)) (cls :: filterCodes st codes (cls :: rest))
  = patched (deref st cls) nm code
      :: (if includes codes (shorthand (deref st cls)) then [patched (deref st cls) nm code]
          else [])
      ++ byCodes codes (map (deref st) rest).
Proof.
  intros Hnin Hlt. cbn [map]. rewrite deref_patch_eq by exact Hlt. f_equal.
  unfold filterCodes at 1. cbn [List.filter].
  fold (filterCodes st codes rest).
  assert (Hrest : map (deref (patch st cls nm code)) (filterCodes st codes rest)
                  = byCodes codes (map (deref st) rest)).
  { rewrite map_deref_patch.
    - apply filterCodes_byCodes.
    - intros Hin. apply Hnin. now apply filterCodes_incl in Hin. }
  destruct (includes codes (shorthand (deref st cls))); cbn [map app].
  - rewrite deref_patch_eq by exact Hlt. now rewrite Hrest.
  - exact Hrest.
Qed.

Lemma resolve_visitGroup tg classname s cls rest :
  rest <> [] -> ~ In cls rest -> cls < length (store s) ->
  parentType (deref (store s) classname) = parentType (deref (store s) cls) ->
  exists pushed,
    validated (resolve tg classname s cls (cls :: rest)) = validated s ++ pushed
    /\ incl pushed (cls :: rest)
    /\ map (deref (store (resolve tg classname s cls (cls :: rest)))) pushed
       = fst (visitGroup tg (map (deref (store s)) (cls :: rest)))
    /\ troubles (resolve tg classname s cls (cls :: rest))
       = troubles s ++ snd (visitGroup tg (map (deref (store s)) (cls :: rest)))
    /\ (forall r, r <> cls ->
          deref (store (resolve tg classname s cls (cls :: rest))) r = deref (store s) r)
    /\ (forall parsed, frame parsed (store s) ->
          frame parsed (store (resolve tg classname s cls (cls :: rest)))).
Proof.
  intros Hrest Hnin Hlt Hpty.
  pose proof (resolve_merges tg classname s cls (cls :: rest)) as Hres. cbv zeta in Hres.
  destruct rest as [|r0 rest']; [now destruct Hrest|].
  set (rest := r0 :: rest') in *.
  assert (Hvis : visitGroup tg (map (deref (store s)) (cls :: rest))
                 = visitGroup tg (deref (store s) cls :: deref (store s) r0
                                    :: map (deref (store s)) rest')) by reflexivity.
  rewrite Hvis. unfold visitGroup. rewrite <- Hpty.
  change (deref (store s) cls :: deref (store s) r0 :: map (deref (store s)) rest')
    with (map (deref (store s)) (cls :: rest)).
  change (deref (store s) r0 :: map (deref (store s)) rest')
    with (map (deref (store s)) rest).
  destruct (decisionOf _) as [|code|code|]; rewrite Hres; unfold mergeInto, push;
    cbn [validated store troubles fst snd].
  - exists [cls]. split_and!.
    + reflexivity.
    + intros r [<-|[]]. now left.
    + cbn [map]. now rewrite deref_patch_eq.
    + now rewrite names_map.
    + intros r Hne. now apply deref_patch_ne.
    + intros parsed. apply frame_patch.
  - exists (cls :: filterCodes (store s) (keptCodes code) (cls :: rest)). split_and!.
    + reflexivity.
    + intros r [<-|Hin]; [now left|]. now apply filterCodes_incl in Hin.
    + apply merge_pushed; assumption.
    + now rewrite names_map, filterCodes_byCodes.
    + intros r Hne. now apply deref_patch_ne.
    + intros parsed. apply frame_patch.
  - exists (cls :: filterCodes (store s) (keptCodes code) (cls :: rest)). split_and!.
    + reflexivity.
    + intros r [<-|Hin]; [now left|]. now apply filterCodes_incl in Hin.
    + apply merge_pushed; assumption.
    + now rewrite names_map, filterCodes_byCodes.
    + intros r Hne. now apply deref_patch_ne.
    + intros parsed. apply frame_patch.
  - exists (cls :: rest). split_and!.
    + reflexivity.
    + apply incl_refl.
    + reflexivity.
    + now rewrite app_nil_r.
    + reflexivity.
    + intros parsed Hf. exact Hf.
Qed.

(** ** One step of the inner loop *)

Section Grouper.

Context (tg : list Group) (parsed : Store).

Lemma sameTypeOf_frame st classname :
  frame parsed st -> sameTypeOf st classname = sameTypeOf parsed classname.
Proof.
  intros [Hlen Hf]. unfold sameTypeOf. rewrite Hlen. apply filter_ext. intros r.
  destruct (Hf r) as (-> & _). destruct (Hf classname) as (-> & _). reflexivity.
Qed.

Lemma sameTypeOf_spec classname r :
  In r (sameTypeOf parsed classname)
  <-> r < length parsed /\ parentType (deref parsed r) = parentType (deref parsed classname).
Proof.
  unfold sameTypeOf. rewrite filter_In, in_seq, String.eqb_eq. intuition lia.
Qed.

Lemma sameVariantAndValueOf_members st classname cls :
  frame parsed st ->
  parentType (deref parsed classname) = parentType (deref parsed cls) ->
  sameVariantAndValueOf st cls (sameTypeOf parsed classname) = members parsed cls.
Proof.
  intros [_ Hf] Hpty. unfold sameVariantAndValueOf, sameTypeOf, members.
  rewrite filter_filter. apply filter_ext. intros r. unfold sameTriple.
  destruct (Hf r) as (_ & -> & -> & _). destruct (Hf cls) as (_ & -> & -> & _).
  rewrite Hpty. now rewrite andb_assoc.
Qed.

Lemma sameTriple_refl c : sameTriple c c = true.
Proof. unfold sameTriple. now rewrite !String.eqb_refl. Qed.

Lemma sameTriple_sym a b : sameTriple a b = sameTriple b a.
Proof.
  unfold sameTriple.
  now rewrite (String.eqb_sym (parentType a)), (String.eqb_sym (variants a)),
    (String.eqb_sym (value a)).
Qed.

Lemma sameTriple_trans a b c :
  sameTriple a b = true -> sameTriple b c = sameTriple a c.
Proof.
  intros H. apply sameTriple_spec in H as (H1 & H2 & H3).
  unfold sameTriple. now rewrite H1, H2, H3.
Qed.

Lemma sameTriple_keyOf a b : sameTriple a b = true -> keyOf a = keyOf b.
Proof.
  intros H. apply sameTriple_spec in H as (_ & H2 & H3). unfold keyOf. now rewrite H2, H3.
Qed.

(** The representative is the first member of its candidate set. *)
Lemma members_head cls :
  cls < length parsed ->
  (forall r, In r (members parsed cls) -> cls <= r) ->
  exists rest, members parsed cls = cls :: rest /\ ~ In cls rest.
Proof.
  intros Hlt Hfirst.
  exists (List.filter (fun r => sameTriple (deref parsed r) (deref parsed cls))
                      (seq (S cls) (length parsed - S cls))).
  split.
  - unfold members at 1.
    replace (length parsed) with (cls + S (length parsed - S cls)) at 1 by lia.
    rewrite seq_app, List.filter_app. cbn [seq List.filter plus].
    rewrite sameTriple_refl, filter_none; [reflexivity|].
    intros r Hr. apply in_seq in Hr.
    destruct (sameTriple (deref parsed r) (deref parsed cls)) eqn:Hs; [|reflexivity].
    assert (Hin : In r (members parsed cls)) by (apply members_spec; split; [lia|exact Hs]).
    apply Hfirst in Hin. lia.
  - rewrite filter_In, in_seq. lia.
Qed.

Lemma members_same cls cls' :
  sameTriple (deref parsed cls') (deref parsed cls) = true ->
  members parsed cls' = members parsed cls.
Proof.
  intros Hs. unfold members. apply filter_ext. intros r.
  rewrite (sameTriple_sym (deref parsed r) (deref parsed cls')).
  rewrite (sameTriple_sym (deref parsed r) (deref parsed cls)).
  rewrite sameTriple_sym in Hs. rewrite <- (sameTriple_trans _ _ _ Hs).
  reflexivity.
Qed.

Lemma visitSameType_checked classname sameType s cvv cls :
  includes cvv (keyOf (deref (store s) cls)) = true ->
  visitSameType tg classname sameType (s, cvv) cls = (s, cvv).
Proof. intros Hin. unfold visitSameType. cbn [fst snd]. fold (keyOf (deref (store s) cls)). now rewrite Hin. Qed.

Lemma visitSameType_new classname s cvv cls :
  frame parsed (store s) ->
  cls < length parsed ->
  parentType (deref parsed classname) = parentType (deref parsed cls) ->
  (forall r, In r (members parsed cls) -> deref (store s) r = deref parsed r) ->
  (forall r, In r (members parsed cls) -> cls <= r) ->
  includes cvv (keyOf (deref parsed cls)) = false ->
  exists s' pushed,
    visitSameType tg classname (sameTypeOf parsed classname) (s, cvv) cls
    = (s', cvv ++ [keyOf (deref parsed cls)])
    /\ validated s' = validated s ++ pushed
    /\ incl pushed (members parsed cls)
    /\ map (deref (store s')) pushed
       = fst (visitGroup tg (map (deref parsed) (members parsed cls)))
    /\ troubles s' = troubles s ++ snd (visitGroup tg (map (deref parsed) (members parsed cls)))
    /\ (forall r, r <> cls -> deref (store s') r = deref (store s) r)
    /\ frame parsed (store s').
Proof.
  intros Hframe Hlt Hpty Hsame Hfirst Hkey.
  destruct (members_head cls Hlt Hfirst) as (rest & Hmem & Hnin).
  assert (Hcls : deref (store s) cls = deref parsed cls).
  { apply Hsame. rewrite Hmem. now left. }
  assert (Hmap : map (deref (store s)) (members parsed cls)
                 = map (deref parsed) (members parsed cls)).
  { apply map_ext_in. exact Hsame. }
  unfold visitSameType. cbn [fst snd]. fold (keyOf (deref (store s) cls)).
  rewrite Hcls, Hkey.
  rewrite (sameVariantAndValueOf_members (store s) classname cls Hframe Hpty).
  rewrite <- Hmap, Hmem.
  destruct rest as [|r0 rest'].
  - cbn [length Nat.eqb]. exists (push s [cls]), [cls].
    cbn [map push store validated troubles visitGroup fst snd].
    rewrite app_nil_r. split_and!; try reflexivity; [apply incl_refl|exact Hframe].
  - cbn [length Nat.eqb negb].
    destruct (resolve_visitGroup tg classname s cls (r0 :: rest'))
      as (pushed & Hv & Hincl & Hpushed & Htr & Hother & Hfr).
    + discriminate.
    + exact Hnin.
    + destruct Hframe as [-> _]. exact Hlt.
    + destruct Hframe as [_ Hf]. destruct (Hf classname) as (-> & _).
      destruct (Hf cls) as (-> & _). exact Hpty.
    + exists (resolve tg classname s cls (cls :: r0 :: rest')), pushed.
      split_and!; try assumption; try reflexivity. now apply Hfr.
Qed.

(** ** The invariant of the inner loop *)

Lemma members_facts cls r :
  In r (members parsed cls) ->
  r < length parsed
  /\ sameTriple (deref parsed r) (deref parsed cls) = true
  /\ parentType (deref parsed r) = parentType (deref parsed cls)
  /\ keyOf (deref parsed r) = keyOf (deref parsed cls).
Proof.
  intros Hin. apply members_spec in Hin as [Hlt Hs]. split_and!; try assumption.
  - now apply sameTriple_spec in Hs as (? & _).
  - now apply sameTriple_keyOf.
Qed.

Lemma frame_keyOf st r : frame parsed st -> keyOf (deref st r) = keyOf (deref parsed r).
Proof. intros [_ Hf]. destruct (Hf r) as (_ & Hv & Hval & _). unfold keyOf. now rewrite Hv, Hval. Qed.

Lemma isPassthrough_false r :
  parentType (deref parsed r) <> "" -> isPassthrough parsed r = false.
Proof. intros Hne. unfold isPassthrough. now apply String.eqb_neq. Qed.

Lemma inner_step classname cg passed j acc :
  parentType (deref parsed classname) <> "" ->
  j < length parsed ->
  innerInv tg parsed (parentType (deref parsed classname)) cg passed j acc ->
  innerInv tg parsed (parentType (deref parsed classname)) cg passed (S j)
    (if String.eqb (parentType (deref parsed j)) (parentType (deref parsed classname))
     then visitSameType tg classname (sameTypeOf parsed classname) acc j
     else acc).
Proof.
  set (F := parentType (deref parsed classname)).
  intros HF Hj Hinv. destruct acc as [s cvv].
  destruct Hinv as (HC & HU1 & HU2 & HV & HP). cbn [fst snd] in *.
  destruct (String.eqb_spec (parentType (deref parsed j)) F) as [HFj|HFj].
  2:{ split_and!; try assumption. cbn [snd]. intros r Hr HFr. apply HV; [|exact HFr].
      destruct (Nat.eq_dec r j) as [->|]; [contradiction|lia]. }
  pose proof (c_frame _ _ _ HC) as Hframe.
  destruct (includes cvv (keyOf (deref parsed j))) eqn:Hkey.
  - rewrite visitSameType_checked
      by (rewrite frame_keyOf by exact Hframe; exact Hkey).
    split_and!; try assumption. cbn [snd]. intros r Hr HFr.
    destruct (Nat.eq_dec r j) as [->|]; [now apply includes_In|apply HV; [lia|exact HFr]].
  - assert (Hnotin : ~ In (keyOf (deref parsed j)) cvv) by now apply includes_not_In.
    assert (Hmem : forall r, In r (members parsed j) ->
                     untouched parsed s r /\ j <= r /\ parentType (deref parsed r) = F).
    { intros r Hr. apply members_facts in Hr as (Hlt & _ & Hp & Hk).
      rewrite HFj in Hp. split_and!.
      - apply HU2; [exact Hlt|exact Hp|now rewrite Hk].
      - destruct (Nat.le_gt_cases j r) as [|Hlt']; [assumption|].
        exfalso. apply Hnotin. rewrite <- Hk. now apply HV.
      - exact Hp. }
    destruct (visitSameType_new classname s cvv j)
      as (s' & pushed & Heq & Hval & Hincl & Hpushed & Htr & Hother & Hframe');
      try assumption.
    { now symmetry. }
    { intros r Hr. now apply Hmem. }
    { intros r Hr. now apply Hmem. }
    rewrite Heq. unfold innerInv. cbn [fst snd].
    assert (Hpj : forall r, In r pushed -> In r (members parsed j)) by (intros r Hr; now apply Hincl).
    split_and!.
    + constructor.
      * exact Hframe'.
      * intros r Hr. rewrite Hval in Hr. apply in_app_or in Hr as [Hr|Hr].
        -- now apply (c_bound _ _ _ HC).
        -- now apply Hpj, members_facts in Hr.
      * intros r Hr. rewrite Hother; [now apply (c_pass _ _ _ HC)|].
        intros ->. apply HF. now rewrite <- HFj.
      * intros cls0 Hcls0 HF0. cbv zeta. rewrite Hval, List.filter_app.
        destruct (sameTriple (deref parsed cls0) (deref parsed j)) eqn:Hs.
        -- right.
           rewrite (filter_none _ (validated s)), (filter_every _ pushed).
           ++ cbn [app]. rewrite Hpushed. now rewrite (members_same j cls0).
           ++ intros r Hr. apply Hpj, members_facts in Hr as (_ & Hr & _).
              rewrite sameTriple_sym in Hs. now rewrite <- (sameTriple_trans _ _ _ Hr).
           ++ intros r Hr.
              destruct (sameTriple (deref parsed r) (deref parsed cls0)) eqn:Hr0; [|reflexivity].
              exfalso.
              assert (Hin : In r (members parsed j)).
              { apply members_spec. split; [now apply (c_bound _ _ _ HC)|].
                now rewrite <- (sameTriple_trans _ _ _ Hr0). }
              apply Hmem in Hin as ([_ Hn] & _). now apply Hn.
        -- rewrite (filter_none _ pushed), app_nil_r.
           ++ destruct (c_settled _ _ _ HC cls0 Hcls0 HF0) as [Hnil|Hsub]; [now left|right].
              rewrite <- Hsub. apply map_ext_in. intros r Hr. apply Hother.
              intros ->. apply filter_In in Hr as [_ Hr].
              rewrite sameTriple_sym in Hr. congruence.
           ++ intros r Hr. apply Hpj, members_facts in Hr as (_ & Hr & _).
              rewrite <- (sameTriple_trans _ _ _ Hr). rewrite sameTriple_sym. exact Hs.
      * intros t Ht. rewrite Htr in Ht. apply in_app_or in Ht as [Ht|Ht].
        -- now apply (c_explained _ _ _ HC).
        -- exists j. split_and!; [exact Hj|now rewrite HFj|exact Ht].
    + intros r Hr Hne HneF Hcg. destruct (HU1 r Hr Hne HneF Hcg) as [Hd Hn]. split.
      * rewrite Hother; [exact Hd|]. intros ->. now apply HneF.
      * rewrite Hval. intros Hin. apply in_app_or in Hin as [Hin|Hin]; [now apply Hn|].
        apply Hpj, Hmem in Hin as (_ & _ & Hp). now apply HneF.
    + intros r Hr HFr Hk.
      assert (Hk1 : ~ In (keyOf (deref parsed r)) cvv).
      { intros Hin. apply Hk, in_or_app. now left. }
      assert (Hk2 : keyOf (deref parsed r) <> keyOf (deref parsed j)).
      { intros Heq'. apply Hk, in_or_app. right. left. now symmetry. }
      destruct (HU2 r Hr HFr Hk1) as [Hd Hn]. split.
      * rewrite Hother; [exact Hd|]. intros ->. now apply Hk2.
      * rewrite Hval. intros Hin. apply in_app_or in Hin as [Hin|Hin]; [now apply Hn|].
        apply Hpj, members_facts in Hin as (_ & _ & _ & Hin). now apply Hk2.
    + intros r Hr HFr. apply in_or_app.
      destruct (Nat.eq_dec r j) as [->|]; [right; now left|left; apply HV; [lia|exact HFr]].
    + rewrite Hval, List.filter_app, HP, (filter_none _ pushed); [apply app_nil_r|].
      intros r Hr. apply isPassthrough_false.
      apply Hpj, Hmem in Hr as (_ & _ & ->). exact HF.
Qed.

(** ** The invariant of the outer loop *)

Lemma frame_parentType st r :
  frame parsed st -> parentType (deref st r) = parentType (deref parsed r).
Proof. intros [_ Hf]. now destruct (Hf r) as (-> & _). Qed.

Lemma filter_seq_S (p : nat -> bool) k :
  List.filter p (seq 0 (S k)) = List.filter p (seq 0 k) ++ (if p k then [k] else []).
Proof. rewrite seq_S, List.filter_app. cbn [List.filter plus]. now destruct (p k). Qed.

Lemma outer_step k acc :
  k < length parsed ->
  outerInv tg parsed k acc -> outerInv tg parsed (S k) (visitParsed tg acc k).
Proof.
  intros Hk Hinv. destruct acc as [s cg]. destruct Hinv as (HC & HU & HV).
  cbn [fst snd] in *. pose proof (c_frame _ _ _ HC) as Hframe.
  unfold visitParsed. cbn [fst snd].
  rewrite frame_parentType by exact Hframe.
  destruct (String.eqb_spec (parentType (deref parsed k)) "") as [Hpass|Hfam].
  - unfold outerInv, push. cbn [fst snd validated store troubles]. split_and!.
    + constructor; cbn [validated store troubles].
      * exact Hframe.
      * intros r Hr. apply in_app_or in Hr as [Hr|[<-|[]]]; [now apply (c_bound _ _ _ HC)|exact Hk].
      * apply (c_pass _ _ _ HC).
      * intros cls0 Hcls0 HF0. cbv zeta. cbn [validated store].
        rewrite List.filter_app. cbn [List.filter].
        replace (sameTriple (deref parsed k) (deref parsed cls0)) with false.
        -- rewrite app_nil_r. apply (c_settled _ _ _ HC cls0 Hcls0 HF0).
        -- symmetry. apply not_true_is_false. intros Hs.
           apply sameTriple_spec in Hs as (Hs & _). congruence.
      * apply (c_explained _ _ _ HC).
    + intros r Hr Hne Hcg. destruct (HU r Hr Hne Hcg) as [Hd Hn]. split; [exact Hd|].
      intros Hin. apply in_app_or in Hin as [Hin|[<-|[]]]; [now apply Hn|contradiction].
    + rewrite List.filter_app, HV, filter_seq_S. cbn [List.filter].
      unfold isPassthrough at 2 4. rewrite Hpass. reflexivity.
  - assert (Hnp : isPassthrough parsed k = false) by now apply isPassthrough_false.
    destruct (includes cg (parentType (deref parsed k))) eqn:Hcg; cbn [negb].
    + unfold outerInv. cbn [fst snd]. split_and!; try assumption.
      rewrite HV, filter_seq_S, Hnp. now rewrite app_nil_r.
    + apply includes_not_In in Hcg.
      rewrite sameTypeOf_frame by exact Hframe.
      unfold sameTypeOf at 2. rewrite fold_left_filter.
      pose proof (fold_seq_ind
        (innerInv tg parsed (parentType (deref parsed k)) cg
                  (List.filter (isPassthrough parsed) (validated s)))
        (fun a x =>
           if String.eqb (parentType (deref parsed x)) (parentType (deref parsed k))
           then visitSameType tg k (sameTypeOf parsed k) a x else a)
        (s, []) (length parsed)) as Hfold.
      destruct Hfold as (HC' & HU1 & HU2 & _ & HP).
      * unfold innerInv. cbn [fst snd]. split_and!.
        -- exact HC.
        -- intros r Hr Hne _ Hcg'. now apply HU.
        -- intros r Hr HF _. apply HU; [exact Hr|now rewrite HF|now rewrite HF].
        -- intros r Hr. lia.
        -- reflexivity.
      * intros j acc Hj Hacc. now apply inner_step.
      * unfold outerInv. cbn [fst snd]. split_and!.
        -- exact HC'.
        -- intros r Hr Hne Hcg'. apply HU1; try assumption.
           ++ intros HF. apply Hcg', in_or_app. right. now left.
           ++ intros Hin. apply Hcg', in_or_app. now left.
        -- rewrite filter_seq_S, Hnp, app_nil_r, <- HV. exact HP.
Qed.

Lemma validate_inv :
  outerInv tg parsed (length parsed)
    (fold_left (visitParsed tg) (seq 0 (length parsed)) (mkState parsed [] [], [])).
Proof.
  apply fold_seq_ind.
  - unfold outerInv. cbn [fst snd validated]. split_and!.
    + constructor; cbn [validated store troubles].
      * apply frame_refl.
      * intros r [].
      * reflexivity.
      * intros cls _ _. now left.
      * intros t [].
    + intros r _ _ _. split; [reflexivity|intros []].
    + reflexivity.
  - intros k acc Hk. now apply outer_step.
Qed.

Lemma validate_common : Common tg parsed (validate tg parsed).
Proof. apply validate_inv. Qed.

Lemma validate_passthrough :
  List.filter (isPassthrough parsed) (validated (validate tg parsed))
  = List.filter (isPassthrough parsed) (seq 0 (length parsed)).
Proof. apply validate_inv. Qed.

End Grouper.

(** ** What the run keeps of the descriptors it merges *)

Lemma visitGroup_trouble tg set t :
  In t (snd (visitGroup tg set)) ->
  exists c rest code codes,
    set = c :: rest
    /\ fst t = map name (byCodes codes set)
    /\ snd t = patchedNameOf c (getBodyByShorthand tg (parentType c) code).
Proof.
  destruct set as [|c [|d rest]]; cbn [visitGroup snd]; try (intros []).
  set (set := c :: d :: rest).
  assert (Hall : byCodes (map shorthand set) set = set).
  { unfold byCodes. apply filter_every. intros x Hx. apply includes_In. now apply in_map. }
  destruct (decisionOf _) as [|code|code|]; cbn [snd]; intros Ht;
    try (destruct Ht as [<-|[]]); try (destruct Ht).
  - exists c, (d :: rest), "all", (map shorthand set). cbn [fst snd]. now rewrite Hall.
  - exists c, (d :: rest), code, (mergedCodes code). now cbn [fst snd].
  - exists c, (d :: rest), code, (mergedCodes code). now cbn [fst snd].
Qed.

(** C6: the descriptors that one merge puts together (the names of one
    subsumed list and the representative that is renamed) all come from one
    candidate set, any two members of which have the same parentType, the
    same variants and the same value, sign included. *)
Theorem merged_share_family_variants_value tg parsed t :
  In t (troubles (validate tg parsed)) ->
  exists cls rep code subsumed,
    In rep (members parsed cls)
    /\ incl subsumed (members parsed cls)
    /\ fst t = names parsed subsumed
    /\ snd t = patchedNameOf (deref parsed rep)
                 (getBodyByShorthand tg (parentType (deref parsed rep)) code)
    /\ forall r1 r2, In r1 (members parsed cls) -> In r2 (members parsed cls) ->
         parentType (deref parsed r1) = parentType (deref parsed r2)
         /\ variants (deref parsed r1) = variants (deref parsed r2)
         /\ value (deref parsed r1) = value (deref parsed r2).
Proof.
  intros Ht.
  destruct (c_explained _ _ _ (validate_common tg parsed) t Ht) as (cls & Hcls & _ & Hin).
  apply visitGroup_trouble in Hin as (c & rest & code & codes & Hset & Hfst & Hsnd).
  destruct (members parsed cls) as [|rep others] eqn:Hmem; [discriminate|].
  cbn [map] in Hset. inversion Hset as [[Hc Hrest]].
  exists cls, rep, code, (filterCodes parsed codes (members parsed cls)).
  rewrite Hmem. split_and!.
  - now left.
  - apply filterCodes_incl.
  - rewrite Hfst, names_map, filterCodes_byCodes. reflexivity.
  - rewrite Hc. exact Hsnd.
  - rewrite <- Hmem. intros r1 r2 H1 H2.
    apply members_spec in H1 as [_ H1]. apply members_spec in H2 as [_ H2].
    apply sameTriple_spec in H1 as (-> & -> & ->).
    apply sameTriple_spec in H2 as (-> & -> & ->). now split_and!.
Qed.

Lemma merged_share_family_variants_value_witness :
  exists cls rep code subsumed,
    In rep (members [mkClass "mt-3" "" "Margin" "3" "t" "" "";
                     mkClass "mb-3" "" "Margin" "3" "b" "" ""] cls)
    /\ incl subsumed (members [mkClass "mt-3" "" "Margin" "3" "t" "" "";
                               mkClass "mb-3" "" "Margin" "3" "b" "" ""] cls)
    /\ ["mt-3"; "mb-3"]
       = names [mkClass "mt-3" "" "Margin" "3" "t" "" "";
                mkClass "mb-3" "" "Margin" "3" "b" "" ""] subsumed
    /\ "my-3" = patchedNameOf
                  (deref [mkClass "mt-3" "" "Margin" "3" "t" "" "";
                          mkClass "mb-3" "" "Margin" "3" "b" "" ""] rep)
                  (getBodyByShorthand sampleGroups
                     (parentType (deref [mkClass "mt-3" "" "Margin" "3" "t" "" "";
                                         mkClass "mb-3" "" "Margin" "3" "b" "" ""] rep)) code)
    /\ forall r1 r2,
         In r1 (members [mkClass "mt-3" "" "Margin" "3" "t" "" "";
                         mkClass "mb-3" "" "Margin" "3" "b" "" ""] cls) ->
         In r2 (members [mkClass "mt-3" "" "Margin" "3" "t" "" "";
                         mkClass "mb-3" "" "Margin" "3" "b" "" ""] cls) ->
         parentType (deref [mkClass "mt-3" "" "Margin" "3" "t" "" "";
                            mkClass "mb-3" "" "Margin" "3" "b" "" ""] r1)
         = parentType (deref [mkClass "mt-3" "" "Margin" "3" "t" "" "";
                              mkClass "mb-3" "" "Margin" "3" "b" "" ""] r2)
         /\ variants (deref [mkClass "mt-3" "" "Margin" "3" "t" "" "";
                             mkClass "mb-3" "" "Margin" "3" "b" "" ""] r1)
            = variants (deref [mkClass "mt-3" "" "Margin" "3" "t" "" "";
                               mkClass "mb-3" "" "Margin" "3" "b" "" ""] r2)
         /\ value (deref [mkClass "mt-3" "" "Margin" "3" "t" "" "";
                          mkClass "mb-3" "" "Margin" "3" "b" "" ""] r1)
            = value (deref [mkClass "mt-3" "" "Margin" "3" "t" "" "";
                            mkClass "mb-3" "" "Margin" "3" "b" "" ""] r2).
Proof.
  apply (merged_share_family_variants_value sampleGroups
           [mkClass "mt-3" "" "Margin" "3" "t" "" "";
            mkClass "mb-3" "" "Margin" "3" "b" "" ""]
           (["mt-3"; "mb-3"], "my-3")).
  vm_compute. left. reflexivity.
Defined.

(** ** The order of the output *)

Lemma reachedBy_S parsed k r :
  reachedBy parsed (S k) r
  = reachedBy parsed k r
    || (String.eqb (parentType (deref parsed k)) (parentType (deref parsed r))
        && (negb (isPassthrough parsed r) || Nat.eqb k r)).
Proof.
  unfold reachedBy. rewrite seq_S, existsb_app. cbn [existsb plus].
  now rewrite orb_false_r.
Qed.

Lemma reachedBy_mono parsed j k r :
  j <= k -> reachedBy parsed j r = true -> reachedBy parsed k r = true.
Proof.
  intros Hle Hj. induction Hle as [|k Hle IH]; [exact Hj|].
  rewrite reachedBy_S, IH. reflexivity.
Qed.

Lemma reachedBy_spec parsed k r :
  reachedBy parsed k r = true
  <-> exists r0, r0 < k
        /\ parentType (deref parsed r0) = parentType (deref parsed r)
        /\ (parentType (deref parsed r) = "" -> r0 = r).
Proof.
  unfold reachedBy. rewrite existsb_exists. split.
  - intros (r0 & Hin & Hb). apply in_seq in Hin. apply andb_true_iff in Hb as [Hp Hd].
    apply String.eqb_eq in Hp. exists r0. split_and!; [lia|exact Hp|].
    intros Hpass. apply orb_true_iff in Hd as [Hd|Hd].
    + unfold isPassthrough in Hd. rewrite Hpass in Hd. discriminate.
    + now apply Nat.eqb_eq.
  - intros (r0 & Hlt & Hp & Hd). exists r0. split; [apply in_seq; lia|].
    apply andb_true_iff. split; [now apply String.eqb_eq|].
    unfold isPassthrough.
    destruct (String.eqb_spec (parentType (deref parsed r)) "") as [Hpass|_]; [|reflexivity].
    cbn. apply Nat.eqb_eq. now apply Hd.
Qed.

(** A block pushed at the step [k] goes behind what the earlier steps pushed. *)
Lemma inPushOrder_app parsed k l block :
  inPushOrder parsed l ->
  (forall r, In r l -> reachedBy parsed k r = true) ->
  (forall r, In r block ->
     reachedBy parsed k r = false /\ reachedBy parsed (S k) r = true) ->
  inPushOrder parsed (l ++ block).
Proof.
  intros Hord Hl Hblock i j x y Hij Hx Hy n Hn.
  apply lookup_app_Some in Hx, Hy.
  assert (Hlate : forall b, In b block -> reachedBy parsed n b = true -> k < n).
  { intros b Hb Hnb. destruct (Nat.le_gt_cases n k) as [Hle|Hlt]; [|exact Hlt].
    destruct (Hblock b Hb) as [Hk _].
    rewrite (reachedBy_mono parsed n k b Hle Hnb) in Hk. discriminate. }
  destruct Hy as [Hy|[Hjl Hy]].
  - destruct Hx as [Hx|[Hil Hx]].
    + exact (Hord i j x y Hij Hx Hy n Hn).
    + apply lookup_lt_Some in Hy. lia.
  - assert (Hyb : In y block).
    { apply list_elem_of_In. now apply list_elem_of_lookup_2 in Hy. }
    pose proof (Hlate y Hyb Hn) as Hkn.
    destruct Hx as [Hx|[Hil Hx]].
    + apply (reachedBy_mono parsed k n); [lia|]. apply Hl.
      apply list_elem_of_In. now apply list_elem_of_lookup_2 in Hx.
    + apply (reachedBy_mono parsed (S k) n); [lia|]. apply Hblock.
      apply list_elem_of_In. now apply list_elem_of_lookup_2 in Hx.
Qed.

Lemma resolve_appends tg classname s cls same :
  exists block,
    validated (resolve tg classname s cls same) = validated s ++ block
    /\ forall b, In b block -> b = cls \/ In b same.
Proof.
  pose proof (resolve_merges tg classname s cls same) as Hres. cbv zeta in Hres.
  destruct (decisionOf _); rewrite Hres; unfold mergeInto, push; cbn [validated];
    eexists; (split; [reflexivity|]).
  - intros b [<-|[]]. now left.
  - intros b [<-|Hb]; [now left|right]. now apply filterCodes_incl in Hb.
  - intros b [<-|Hb]; [now left|right]. now apply filterCodes_incl in Hb.
  - intros b Hb. now right.
Qed.

Lemma visitSameType_appends tg classname sameType acc cls :
  exists block,
    validated (fst (visitSameType tg classname sameType acc cls))
    = validated (fst acc) ++ block
    /\ forall b, In b block -> b = cls \/ In b sameType.
Proof.
  unfold visitSameType. destruct (includes _ _).
  { exists []. rewrite app_nil_r. split; [reflexivity|intros b []]. }
  cbn [fst]. destruct (Nat.eqb _ 1).
  { exists [cls]. split; [reflexivity|]. intros b [<-|[]]. now left. }
  destruct (negb _).
  - destruct (resolve_appends tg classname (fst acc) cls
                (sameVariantAndValueOf (store (fst acc)) cls sameType))
      as (block & Hv & Hb).
    exists block. split; [exact Hv|]. intros b Hin.
    destruct (Hb b Hin) as [->|Hs]; [now left|right].
    unfold sameVariantAndValueOf in Hs. now apply filter_In in Hs.
  - exists []. rewrite app_nil_r. split; [reflexivity|intros b []].
Qed.

Lemma sameType_appends tg classname sameType l acc :
  exists block,
    validated (fst (fold_left (visitSameType tg classname sameType) l acc))
    = validated (fst acc) ++ block
    /\ forall b, In b block -> In b l \/ In b sameType.
Proof.
  revert acc. induction l as [|cls l IH]; intros acc; cbn [fold_left].
  - exists []. rewrite app_nil_r. split; [reflexivity|intros b []].
  - destruct (IH (visitSameType tg classname sameType acc cls)) as (block2 & Hv2 & Hb2).
    destruct (visitSameType_appends tg classname sameType acc cls) as (block1 & Hv1 & Hb1).
    exists (block1 ++ block2). rewrite Hv2, Hv1, app_assoc. split; [reflexivity|].
    intros b Hb. apply in_app_or in Hb as [Hb|Hb].
    + destruct (Hb1 b Hb) as [->|Hs]; [left; now left|now right].
    + destruct (Hb2 b Hb) as [Hl|Hs]; [left; now right|now right].
Qed.

Lemma order_step tg parsed k acc :
  k < length parsed ->
  outerInv tg parsed k acc -> orderInv parsed k acc ->
  orderInv parsed (S k) (visitParsed tg acc k).
Proof.
  intros Hk (HC & _ & _) (Hcg & Hreached & Hord). destruct acc as [s cg].
  cbn [fst snd] in *. pose proof (c_frame _ _ _ HC) as Hframe.
  assert (Hmono : forall r, In r (validated s) -> reachedBy parsed (S k) r = true).
  { intros r Hr. apply (reachedBy_mono parsed k); [lia|now apply Hreached]. }
  unfold visitParsed. cbn [fst snd].
  rewrite (frame_parentType parsed (store s) k Hframe).
  destruct (String.eqb_spec (parentType (deref parsed k)) "") as [Hpass|Hfam].
  - assert (Hkk : reachedBy parsed k k = false /\ reachedBy parsed (S k) k = true).
    { split.
      - apply not_true_is_false. intros Hr. apply reachedBy_spec in Hr as (r0 & Hlt & _ & Hd).
        specialize (Hd Hpass). lia.
      - apply reachedBy_spec. exists k. split_and!; [lia|reflexivity|reflexivity]. }
    unfold orderInv, push. cbn [fst snd validated]. split_and!.
    + intros r Hr Hne. apply Hcg; [|exact Hne].
      destruct (Nat.eq_dec r k) as [->|]; [contradiction|lia].
    + intros r Hr. apply in_app_or in Hr as [Hr|[<-|[]]]; [now apply Hmono|apply Hkk].
    + apply (inPushOrder_app parsed k); [exact Hord|exact Hreached|].
      intros r [<-|[]]. exact Hkk.
  - destruct (includes cg (parentType (deref parsed k))) eqn:Hin; cbn [negb].
    + unfold orderInv. cbn [fst snd]. split_and!; [|exact Hmono|exact Hord].
      intros r Hr Hne. destruct (Nat.eq_dec r k) as [->|].
      * now apply includes_In.
      * apply Hcg; [lia|exact Hne].
    + apply includes_not_In in Hin.
      rewrite (sameTypeOf_frame parsed (store s) k Hframe).
      destruct (sameType_appends tg k (sameTypeOf parsed k) (sameTypeOf parsed k) (s, []))
        as (block & Hv & Hb).
      cbn [fst] in Hv.
      assert (Hblock : forall b, In b block ->
                reachedBy parsed k b = false /\ reachedBy parsed (S k) b = true).
      { intros b Hin'.
        assert (Hs : In b (sameTypeOf parsed k)) by (destruct (Hb b Hin'); assumption).
        apply sameTypeOf_spec in Hs as [_ Hp]. split.
        - apply not_true_is_false. intros Hr.
          apply reachedBy_spec in Hr as (r0 & Hlt & Hp0 & _).
          apply Hin. rewrite <- Hp, <- Hp0. apply Hcg; [exact Hlt|]. congruence.
        - apply reachedBy_spec. exists k. split_and!; [lia|now symmetry|].
          intros Hpass. congruence. }
      unfold orderInv. cbn [fst snd]. rewrite Hv. split_and!.
      * intros r Hr Hne. apply in_or_app. destruct (Nat.eq_dec r k) as [->|].
        -- right. now left.
        -- left. apply Hcg; [lia|exact Hne].
      * intros r Hr. apply in_app_or in Hr as [Hr|Hr]; [now apply Hmono|now apply Hblock].
      * now apply (inPushOrder_app parsed k).
Qed.

Lemma validate_order tg parsed :
  orderInv parsed (length parsed)
    (fold_left (visitParsed tg) (seq 0 (length parsed)) (mkState parsed [] [], [])).
Proof.
  enough (H : outerInv tg parsed (length parsed)
                (fold_left (visitParsed tg) (seq 0 (length parsed)) (mkState parsed [] [], []))
              /\ orderInv parsed (length parsed)
                   (fold_left (visitParsed tg) (seq 0 (length parsed)) (mkState parsed [] [], [])))
    by apply H.
  apply (fold_seq_ind (fun k acc => outerInv tg parsed k acc /\ orderInv parsed k acc)).
  - split.
    + pose proof (fold_seq_ind (outerInv tg parsed) (visitParsed tg) (mkState parsed [] [], []) 0)
        as H0.
      apply H0; [|intros; lia].
      unfold outerInv. cbn [fst snd validated]. split_and!.
      * constructor; cbn [validated store troubles].
        -- apply frame_refl.
        -- intros r [].
        -- reflexivity.
        -- intros cls _ _. now left.
        -- intros t [].
      * intros r _ _ _. split; [reflexivity|intros []].
      * reflexivity.
    + unfold orderInv. cbn [fst snd validated]. split_and!.
      * intros r Hr. lia.
      * intros r [].
      * intros i j x y _ Hx. discriminate.
  - intros k acc Hk [Hout Hord]. split; [now apply outer_step|now apply order_step].
Qed.

Lemma precedes_lookup l x y :
  precedes l x y = true <-> exists i j, i < j /\ l !! i = Some x /\ l !! j = Some y.
Proof.
  induction l as [|z l IH]; cbn [precedes].
  - split; [discriminate|]. intros (i & j & _ & Hx & _). discriminate.
  - rewrite orb_true_iff, andb_true_iff, Nat.eqb_eq, IH. split.
    + intros [[-> Hex]|(i & j & Hij & Hx & Hy)].
      * apply existsb_exists in Hex as (y' & Hin & Heq). apply Nat.eqb_eq in Heq. subst y'.
        apply list_elem_of_In, list_elem_of_lookup in Hin as [j Hj].
        exists 0, (S j). split_and!; [lia|reflexivity|exact Hj].
      * exists (S i), (S j). split_and!; [lia|exact Hx|exact Hy].
    + intros (i & j & Hij & Hx & Hy). destruct j as [|j]; [lia|]. cbn in Hy.
      destruct i as [|i].
      * left. cbn in Hx. inversion Hx; subst z. split; [reflexivity|].
        apply existsb_exists. exists y. split; [|now apply Nat.eqb_eq].
        apply list_elem_of_In. now apply list_elem_of_lookup_2 in Hy.
      * right. exists i, j. split_and!; [lia|exact Hx|exact Hy].
Qed.

Lemma reachedBy_family parsed k r :
  parentType (deref parsed r) <> "" ->
  reachedBy parsed k r
  = existsb (fun r0 => String.eqb (parentType (deref parsed r0)) (parentType (deref parsed r)))
            (seq 0 k).
Proof.
  intros Hfam. induction k as [|k IH]; [reflexivity|].
  rewrite reachedBy_S, seq_S, existsb_app, IH. cbn [existsb plus].
  rewrite (isPassthrough_false parsed r Hfam). cbn [negb orb].
  now rewrite andb_true_r, orb_false_r.
Qed.

Lemma reachedBy_passthrough parsed k r :
  parentType (deref parsed r) = "" -> reachedBy parsed k r = Nat.ltb r k.
Proof.
  intros Hpass. destruct (Nat.ltb_spec r k) as [Hlt|Hge].
  - apply reachedBy_spec. exists r. split_and!; [exact Hlt|reflexivity|reflexivity].
  - apply not_true_is_false. intros H. apply reachedBy_spec in H as (r0 & Hlt & _ & Hd).
    specialize (Hd Hpass). lia.
Qed.

(** A descriptor is hoisted before the passthrough [r], or follows it in
    [parsed], or was reached before it. *)
Lemma reachedBy_hoisted parsed r r' :
  r' <> r ->
  negb (reachedBy parsed r r') = Nat.ltb r r' && negb (hoisted parsed r r').
Proof.
  intros Hne. unfold hoisted.
  destruct (String.eqb_spec (parentType (deref parsed r')) "") as [Hp'|Hf'].
  - rewrite (reachedBy_passthrough parsed r r' Hp'). unfold isPassthrough.
    rewrite Hp'. cbn [String.eqb negb andb]. rewrite andb_true_r.
    destruct (Nat.ltb_spec r' r), (Nat.ltb_spec r r'); try reflexivity; lia.
  - rewrite (reachedBy_family parsed r r' Hf'), (isPassthrough_false parsed r' Hf').
    cbn [negb andb].
    destruct (existsb _ (seq 0 r)) eqn:Hex; cbn [negb]; [now rewrite andb_false_r|].
    rewrite andb_true_r. symmetry. apply Nat.ltb_lt.
    destruct (Nat.lt_trichotomy r r') as [Hlt|[->|Hgt]]; [exact Hlt|contradiction|].
    exfalso. apply not_true_iff_false in Hex. apply Hex.
    apply existsb_exists. exists r'. split; [apply in_seq; lia|apply String.eqb_refl].
Qed.

(** The place of a passthrough descriptor among the output descriptors. *)
Lemma passthrough_place tg parsed r :
  r < length parsed -> parentType (deref parsed r) = "" ->
  keepsPositionUnlessHoisted parsed (validate tg parsed) r.
Proof.
  intros Hr Hpass r' Hr' Hne.
  destruct (validate_order tg parsed) as (_ & _ & Hord).
  fold (validate tg parsed) in Hord.
  set (V := validated (validate tg parsed)) in *.
  assert (HrV : In r V).
  { assert (Hin : In r (List.filter (isPassthrough parsed) V)).
    { unfold V. rewrite validate_passthrough. apply filter_In. split; [apply in_seq; lia|].
      unfold isPassthrough. now rewrite Hpass. }
    now apply filter_In in Hin. }
  assert (Hrr : reachedBy parsed r r = false).
  { rewrite (reachedBy_passthrough parsed r r Hpass). apply Nat.ltb_irrefl. }
  assert (HSr : reachedBy parsed (S r) r = true).
  { rewrite (reachedBy_passthrough parsed (S r) r Hpass). apply Nat.ltb_lt. lia. }
  assert (Hat : String.eqb (parentType (deref parsed r)) (parentType (deref parsed r'))
                && (negb (isPassthrough parsed r') || Nat.eqb r r') = false).
  { unfold isPassthrough. rewrite Hpass.
    destruct (String.eqb_spec "" (parentType (deref parsed r'))) as [<-|_]; [|reflexivity].
    cbn. now apply Nat.eqb_neq. }
  apply list_elem_of_In, list_elem_of_lookup in HrV as [i Hi].
  apply list_elem_of_In, list_elem_of_lookup in Hr' as [j Hj].
  assert (Hbefore : precedes V r r' = true -> reachedBy parsed r r' = false).
  { intros Hprec. apply precedes_lookup in Hprec as (i' & j' & Hij & Hi' & Hj').
    apply not_true_is_false. intros Hreach.
    rewrite (Hord i' j' r r' Hij Hi' Hj' r Hreach) in Hrr. discriminate. }
  assert (Hbehind : precedes V r' r = true -> reachedBy parsed r r' = true).
  { intros Hprec. apply precedes_lookup in Hprec as (j' & i' & Hji & Hj' & Hi').
    pose proof (Hord j' i' r' r Hji Hj' Hi' (S r) HSr) as HS.
    now rewrite reachedBy_S, Hat, orb_false_r in HS. }
  assert (Hone : precedes V r r' = true \/ precedes V r' r = true).
  { destruct (Nat.lt_trichotomy i j) as [Hij|[->|Hji]].
    - left. apply precedes_lookup. now exists i, j.
    - congruence.
    - right. apply precedes_lookup. now exists j, i. }
  rewrite <- (reachedBy_hoisted parsed r r' Hne).
  destruct (reachedBy parsed r r') eqn:Hreach; cbn [negb].
  - split.
    + apply not_true_is_false. intros Hp. apply Hbefore in Hp. discriminate.
    + destruct Hone as [Hp|Hp]; [apply Hbefore in Hp; discriminate|exact Hp].
  - split.
    + destruct Hone as [Hp|Hp]; [exact Hp|apply Hbehind in Hp; discriminate].
    + apply not_true_is_false. intros Hp. apply Hbehind in Hp. discriminate.
Qed.

(** ** Passthrough descriptors *)

Lemma count_occ_filter (p : nat -> bool) l r :
  p r = true -> count_occ Nat.eq_dec (List.filter p l) r = count_occ Nat.eq_dec l r.
Proof.
  intros Hp. induction l as [|a l IH]; [reflexivity|]. cbn [List.filter].
  destruct (Nat.eq_dec a r) as [->|Hne].
  - rewrite Hp. cbn [count_occ]. destruct (Nat.eq_dec r r); [now rewrite IH|contradiction].
  - destruct (p a); cbn [count_occ]; destruct (Nat.eq_dec a r); try contradiction; exact IH.
Qed.

(** C7 (as amended): every descriptor with the empty parentType is pushed to
    the output exactly once and is never written; it stands at its original
    position among the output descriptors, but for the members of a family
    of which a member stands before it, which are all output before it; the
    descriptors with the empty parentType keep their order among themselves;
    none of them is in a list [sameType] in which the merges are looked for,
    and every merge comes from a candidate set without any of them. *)
Theorem passthrough_kept tg parsed :
  let s := validate tg parsed in
  List.filter (isPassthrough parsed) (validated s)
  = List.filter (isPassthrough parsed) (seq 0 (length parsed))
  /\ (forall r, r < length parsed -> parentType (deref parsed r) = "" ->
        count_occ Nat.eq_dec (validated s) r = 1
        /\ deref (store s) r = deref parsed r
        /\ keepsPositionUnlessHoisted parsed s r)
  /\ (forall st classname r,
        parentType (deref st classname) <> "" -> parentType (deref st r) = "" ->
        ~ In r (sameTypeOf st classname))
  /\ (forall t, In t (troubles s) ->
        exists cls,
          (forall r, In r (members parsed cls) -> parentType (deref parsed r) <> "")
          /\ In t (snd (visitGroup tg (map (deref parsed) (members parsed cls))))).
Proof.
  cbv zeta. split_and!.
  4:{ intros t Ht.
      destruct (c_explained _ _ _ (validate_common tg parsed) t Ht) as (cls & _ & Hfam & Hin).
      exists cls. split; [|exact Hin].
      intros r Hr. apply members_facts in Hr as (_ & _ & -> & _). exact Hfam. }
  - apply validate_passthrough.
  - intros r Hr Hpass. split_and!.
    + assert (Hp : isPassthrough parsed r = true).
      { unfold isPassthrough. now apply String.eqb_eq. }
      rewrite <- (count_occ_filter (isPassthrough parsed)) by exact Hp.
      rewrite validate_passthrough, count_occ_filter by exact Hp.
      apply NoDup_count_occ'; [apply seq_NoDup|apply in_seq; lia].
    + now apply (c_pass _ _ _ (validate_common tg parsed)).
    + now apply passthrough_place.
  - intros st classname r Hfam Hpass Hin.
    apply sameTypeOf_spec in Hin as [_ Hin]. congruence.
Qed.

(** C7 (as stated) fails on the relative position: in pt-1 foo pl-2 mt-3 mb-3
    the class foo comes before pl-2, and the output is pt-1 pl-2 foo my-3,
    because the family of pt-1 is output as a whole where pt-1 stands: pl-2
    is hoisted before foo, and mt-3, whose family begins behind foo, is not. *)
Lemma passthrough_overtaken :
  exists o, sampleRun "pt-1 foo pl-2 mt-3 mb-3" = Some o
            /\ parentType (deref (@parsedOf sampleCollaborators sampleGroups
                                    (mkSegment "pt-1 foo pl-2 mt-3 mb-3" 1 1 "" "" true)) 1) = ""
            /\ validated (o_state o) = [0; 2; 1; 3]
            /\ ~ keepsPosition (o_state o) 1
            /\ hoisted (@parsedOf sampleCollaborators sampleGroups
                          (mkSegment "pt-1 foo pl-2 mt-3 mb-3" 1 1 "" "" true)) 1 2 = true
            /\ hoisted (@parsedOf sampleCollaborators sampleGroups
                          (mkSegment "pt-1 foo pl-2 mt-3 mb-3" 1 1 "" "" true)) 1 3 = false
            /\ map r_text (o_reports o) = ["pt-1 pl-2 foo my-3"].
Proof.
  evaluate_run. split_and!; try reflexivity.
  intros Hkeeps. specialize (Hkeeps 2). cbn in Hkeeps.
  assert (Hfalse : false = true) by (apply Hkeeps; [tauto|discriminate]).
  discriminate.
Qed.

(** ** A second visit of a visited set reports nothing *)

Lemma someIs_cons code c arr :
  someIs code (c :: arr) = String.eqb (shorthand c) code || someIs code arr.
Proof. reflexivity. Qed.

Lemma someIs_app code arr1 arr2 :
  someIs code (arr1 ++ arr2) = someIs code arr1 || someIs code arr2.
Proof. unfold someIs. apply existsb_app. Qed.

Lemma someIn_nil arr : someIn [] arr = false.
Proof. induction arr as [|c arr IH]; [reflexivity|]. exact IH. Qed.

Lemma existsb_orb {A} (f g : A -> bool) l :
  existsb (fun x => f x || g x) l = existsb f l || existsb g l.
Proof.
  induction l as [|a l IH]; [reflexivity|]. cbn [existsb]. rewrite IH.
  destruct (f a), (g a), (existsb f l); reflexivity.
Qed.

Lemma someIn_cons code codes arr :
  someIn (code :: codes) arr = someIs code arr || someIn codes arr.
Proof.
  change (existsb (fun c => String.eqb (shorthand c) code || includes codes (shorthand c)) arr
          = someIs code arr || someIn codes arr).
  apply existsb_orb.
Qed.

Lemma someIn_present codes arr :
  someIn codes arr = existsb (fun k => someIs k arr) codes.
Proof.
  induction codes as [|code codes IH]; [apply someIn_nil|].
  rewrite someIn_cons, IH. reflexivity.
Qed.

Lemma flagsOf_flagsBy pty arr :
  flagsOf pty arr = flagsBy (includes ["Border Radius"] pty) (fun k => someIs k arr).
Proof.
  unfold flagsOf, flagsBy. rewrite !someIn_cons, !someIn_nil. reflexivity.
Qed.

Lemma flagsBy_ext corners p q :
  (forall k, In k codes11 -> p k = q k) -> flagsBy corners p = flagsBy corners q.
Proof.
  intros H. unfold flagsBy.
  rewrite (H "all"), (H "x"), (H "y"), (H "t"), (H "r"), (H "b"), (H "l"),
    (H "tl"), (H "tr"), (H "br"), (H "bl") by (cbn; tauto).
  reflexivity.
Qed.

Lemma mergedCodes_known code k : In k (mergedCodes code) -> In k codes11.
Proof.
  unfold mergedCodes.
  repeat (destruct (String.eqb code _));
    cbn; intros [<-|[<-|[]]]; tauto.
Qed.

Lemma existsb_ext_in {A} (p q : A -> bool) l :
  (forall x, In x l -> p x = q x) -> existsb p l = existsb q l.
Proof.
  induction l as [|a l IH]; intros H; [reflexivity|]. cbn [existsb].
  rewrite (H a (or_introl eq_refl)), IH; [reflexivity|].
  intros x Hx. apply H. now right.
Qed.

Lemma cleanDecision_ext d p q :
  (forall k, In k codes11 -> p k = q k) -> cleanDecision d p = cleanDecision d q.
Proof.
  intros H. destruct d as [|code|code|]; cbn [cleanDecision]; try reflexivity;
    f_equal; apply existsb_ext_in; intros k Hk; apply H; now apply mergedCodes_known in Hk.
Qed.

Lemma secondVisitClean_ext corners hq hq' pr pr' :
  (forall k, In k codes11 -> hq k = hq' k) ->
  (forall k, In k codes11 -> pr k = pr' k) ->
  secondVisitClean corners hq pr = secondVisitClean corners hq' pr'.
Proof.
  intros Hh Hp. unfold secondVisitClean.
  rewrite (flagsBy_ext corners (fun k => hq k || pr k) (fun k => hq' k || pr' k))
    by (intros k Hk; now rewrite Hh, Hp).
  assert (Hafter : forall code k, In k codes11 ->
                     presentAfter code pr k = presentAfter code pr' k).
  { intros code k Hk. unfold presentAfter. now rewrite Hp. }
  destruct (decisionOf _) as [|code|code|]; try reflexivity;
    rewrite (flagsBy_ext corners _ _ (Hafter code));
    apply cleanDecision_ext, Hafter.
Qed.

Lemma lookupCode_map (p : string -> bool) codes k :
  In k codes -> lookupCode codes (map p codes) k = p k.
Proof.
  induction codes as [|c codes IH]; intros Hin; [destruct Hin|].
  cbn [map lookupCode]. destruct (String.eqb_spec c k) as [->|Hne]; [reflexivity|].
  destruct Hin as [->|Hin]; [contradiction|]. now apply IH.
Qed.

Lemma allBools_complete (bs : list bool) : In bs (allBools (length bs)).
Proof.
  induction bs as [|b bs IH]; [now left|].
  cbn [length allBools]. apply in_or_app.
  destruct b; [left|right]; now apply in_map.
Qed.

Lemma secondVisitClean_always corners h pr :
  secondVisitClean corners (String.eqb h) pr = true.
Proof.
  assert (Hall : secondVisitCleanEverywhere = true) by (vm_compute; reflexivity).
  unfold secondVisitCleanEverywhere in Hall.
  rewrite forallb_forall in Hall.
  assert (Hc : In corners [true; false]) by (destruct corners; cbn; tauto).
  specialize (Hall corners Hc). rewrite forallb_forall in Hall.
  set (h0 := if includes codes11 h then h else "").
  assert (Hh0 : In h0 ("" :: codes11)).
  { unfold h0. destruct (includes codes11 h) eqn:Hin; [right; now apply includes_In|now left]. }
  specialize (Hall h0 Hh0). rewrite forallb_forall in Hall.
  specialize (Hall (map pr codes11) (allBools_complete (map pr codes11))).
  rewrite <- Hall. apply secondVisitClean_ext.
  - intros k Hk. unfold h0. destruct (includes codes11 h) eqn:Hin; [reflexivity|].
    apply includes_not_In in Hin.
    destruct (String.eqb_spec h k) as [->|_]; [contradiction|].
    destruct (String.eqb_spec "" k) as [<-|_]; [|reflexivity].
    cbn in Hk. intuition discriminate.
  - intros k Hk. symmetry. now apply lookupCode_map.
Qed.

Lemma someIs_byCodes codes arr k :
  someIs k (byCodes codes arr) = includes codes k && someIs k arr.
Proof.
  induction arr as [|a arr IH]; [now rewrite andb_false_r|].
  unfold byCodes. cbn [List.filter]. fold (byCodes codes arr).
  destruct (includes codes (shorthand a)) eqn:Ha; rewrite ?someIs_cons, IH;
    destruct (String.eqb_spec (shorthand a) k) as [<-|_]; rewrite ?Ha; cbn [orb andb];
    reflexivity.
Qed.

Lemma byCodes_none codes arr :
  existsb (fun k => someIs k arr) codes = false -> byCodes codes arr = [].
Proof.
  rewrite <- someIn_present. intros Hnone. unfold byCodes. apply filter_none.
  intros c Hc. destruct (includes codes (shorthand c)) eqn:Hin; [|reflexivity].
  rewrite <- Hnone. symmetry. unfold someIn. apply existsb_exists. now exists c.
Qed.

(** The codes present in a set once it has been merged into [code]. *)
Lemma present_after_merge c c' code arr k :
  shorthand c' = code ->
  someIs k (c' :: (if includes (keptCodes code) (shorthand c) then [c'] else [])
               ++ byCodes (keptCodes code) arr)
  = presentAfter code (fun k => someIs k arr) k.
Proof.
  intros Hc'. unfold presentAfter.
  rewrite someIs_cons, someIs_app, someIs_byCodes, Hc'.
  destruct (includes (keptCodes code) (shorthand c)); cbn [someIs existsb];
    rewrite ?Hc'; destruct (String.eqb code k); reflexivity.
Qed.

Lemma merged_set_clean tg c d rest c' code t :
  codeOf (decisionOf (flagsOf (parentType c) (c :: d :: rest))) = Some code ->
  code <> "all" ->
  parentType c' = parentType c -> shorthand c' = code ->
  In t (snd (visitGroup tg
               (c' :: (if includes (keptCodes code) (shorthand c) then [c'] else [])
                   ++ byCodes (keptCodes code) (d :: rest)))) ->
  fst t = [].
Proof.
  intros Hdec Hnall Hpty Hsh.
  set (tail := (if includes (keptCodes code) (shorthand c) then [c'] else [])
               ++ byCodes (keptCodes code) (d :: rest)).
  set (corners := includes ["Border Radius"] (parentType c)).
  set (pr := fun k => someIs k (d :: rest)).
  pose proof (secondVisitClean_always corners (shorthand c) pr) as Hclean.
  unfold secondVisitClean in Hclean.
  change (fun k => String.eqb (shorthand c) k || pr k)
    with (fun k => someIs k (c :: d :: rest)) in Hclean.
  unfold corners in Hclean. rewrite <- flagsOf_flagsBy in Hclean.
  assert (Hpres : forall k, someIs k (c' :: tail) = presentAfter code pr k).
  { intros k. now apply present_after_merge. }
  assert (Hflags : flagsOf (parentType c') (c' :: tail)
                   = flagsBy corners (presentAfter code pr)).
  { rewrite flagsOf_flagsBy, Hpty. apply flagsBy_ext. intros k _. apply Hpres. }
  assert (Hclean' : cleanDecision (decisionOf (flagsOf (parentType c') (c' :: tail)))
                                  (presentAfter code pr) = true).
  { rewrite Hflags.
    destruct (decisionOf (flagsOf (parentType c) (c :: d :: rest))) as [|code'|code'|];
      cbn [codeOf] in Hdec; inversion Hdec; subst; try exact Hclean.
    now destruct Hnall. }
  clear Hclean. destruct tail as [|e tail'] eqn:Htail; cbn [visitGroup snd]; [intros []|].
  rewrite <- Htail in *.
  assert (Hnone : forall code2,
            negb (existsb (presentAfter code pr) (mergedCodes code2)) = true ->
            byCodes (mergedCodes code2) (c' :: tail) = []).
  { intros code2 Hneg. apply byCodes_none. apply negb_true_iff in Hneg.
    rewrite <- Hneg. apply existsb_ext_in. intros k _. apply Hpres. }
  destruct (decisionOf (flagsOf (parentType c') (c' :: tail))) as [|code2|code2|];
    cbn [cleanDecision snd] in *.
  - discriminate.
  - intros [<-|[]]. cbn [fst]. now rewrite Hnone.
  - intros [<-|[]]. cbn [fst]. now rewrite Hnone.
  - intros [].
Qed.

Lemma visitGroup_twice tg set t :
  In t (snd (visitGroup tg (fst (visitGroup tg set)))) -> fst t = [].
Proof.
  destruct set as [|c [|d rest]]; cbn [visitGroup fst snd]; try (intros []).
  destruct (decisionOf (flagsOf (parentType c) (c :: d :: rest))) as [|code|code|] eqn:Hdec;
    cbn [fst].
  - cbn [visitGroup snd]. intros [].
  - apply (merged_set_clean tg c d rest); try reflexivity.
    + now rewrite Hdec.
    + intros ->. unfold decisionOf in Hdec.
      repeat (match type of Hdec with (if ?b then _ else _) = _ => destruct b end);
        discriminate.
  - apply (merged_set_clean tg c d rest); try reflexivity.
    + now rewrite Hdec.
    + intros ->. unfold decisionOf in Hdec.
      repeat (match type of Hdec with (if ?b then _ else _) = _ => destruct b end);
        discriminate.
  - cbn [visitGroup]. rewrite Hdec. intros [].
Qed.

(** ** The run on its own output *)

Lemma deref_in (l : Store) r : r < length l -> In (deref l r) l.
Proof.
  intros Hlt. unfold deref. apply list_elem_of_In.
  apply list_elem_of_lookup. exists r. now apply list_lookup_lookup_total_lt.
Qed.

Lemma map_deref_seq (l : Store) : map (deref l) (seq 0 (length l)) = l.
Proof.
  induction l as [|a l IH] using rev_ind; [reflexivity|].
  rewrite length_app. cbn [length]. rewrite Nat.add_1_r, seq_S, map_app. cbn [map plus].
  f_equal.
  - rewrite <- IH at 3. apply map_ext_in. intros r Hr. apply in_seq in Hr.
    unfold deref. apply lookup_total_app_l. lia.
  - unfold deref. f_equal. rewrite lookup_total_app_r by lia.
    now rewrite Nat.sub_diag.
Qed.

(** The candidate set of a descriptor of a list, on values. *)
Lemma members_values (l : Store) cls :
  map (deref l) (members l cls) = List.filter (fun d => sameTriple d (deref l cls)) l.
Proof.
  unfold members.
  rewrite <- (filter_map_comm (deref l) (fun d => sameTriple d (deref l cls))).
  now rewrite map_deref_seq.
Qed.

(** Every candidate set of the output of a run is a set that the run has
    visited, as the visit left it. *)
Lemma output_set_visited tg parsed cls :
  let out := validatedClasses (validate tg parsed) in
  cls < length out ->
  parentType (deref out cls) <> "" ->
  exists set, map (deref out) (members out cls) = fst (visitGroup tg set).
Proof.
  intros out Hcls Hfam.
  pose proof (validate_common tg parsed) as HC.
  pose proof (c_frame _ _ _ HC) as Hframe.
  assert (Hin : In (deref out cls) out) by now apply deref_in.
  unfold out at 2, validatedClasses in Hin. apply in_map_iff in Hin as (cls0 & Hd & Hin0).
  assert (Hb : cls0 < length parsed) by now apply (c_bound _ _ _ HC).
  assert (Hfam0 : parentType (deref parsed cls0) <> "").
  { rewrite <- (frame_parentType parsed _ cls0 Hframe), Hd. exact Hfam. }
  rewrite members_values, <- Hd. unfold out, validatedClasses.
  rewrite filter_map_comm.
  rewrite (filter_ext _ (fun r => sameTriple (deref parsed r) (deref parsed cls0)))
    by (intros r; now apply frame_sameTriple).
  destruct (c_settled _ _ _ HC cls0 Hb Hfam0) as [Hnil|Hset].
  - exists []. now rewrite Hnil.
  - eexists. exact Hset.
Qed.

(** The grouper, run on the descriptors that a run has validated, finds
    nothing more to replace. *)
Lemma validate_twice tg parsed :
  issuesOf (validate tg (validatedClasses (validate tg parsed))) = [].
Proof.
  set (out := validatedClasses (validate tg parsed)).
  unfold issuesOf. apply filter_none. intros t Ht.
  destruct (c_explained _ _ _ (validate_common tg out) t Ht) as (cls & Hcls & Hfam & Hin).
  destruct (output_set_visited tg parsed cls Hcls Hfam) as (set & Hset).
  fold out in Hset. rewrite Hset in Hin. apply visitGroup_twice in Hin.
  now rewrite Hin.
Qed.

(** C8: the analysis is idempotent.  When the class names of a segment are
    read back (by the token extractor and the classname parser) as the
    descriptors that a first run has validated, as is the text that the run
    has produced, the analysis of this segment reports nothing, so no fix
    changes that text. *)
Theorem no_further_findings `{Collaborators} tg seg o seg' :
  analyse tg seg = Some o ->
  parsedOf tg seg' = validatedClasses (o_state o) ->
  reportsOf tg seg' = []
  /\ forall o', analyse tg seg' = Some o' -> issuesOf (o_state o') = [] /\ o_final o' = o_value o'.
Proof.
  intros Ho Hparsed.
  assert (Hstate : o_state o = validate tg (parsedOf tg seg)).
  { unfold analyse in Ho. destruct (Nat.leb _ 1); [discriminate|]. now inversion Ho. }
  assert (Hissues : issuesOf (validate tg (parsedOf tg seg')) = []).
  { rewrite Hparsed, Hstate. apply validate_twice. }
  unfold reportsOf, analyse. destruct (Nat.leb _ 1); [split; [reflexivity|discriminate]|].
  rewrite Hissues. cbn [fold_left fst snd o_reports]. split; [reflexivity|].
  intros o' Ho'. inversion Ho'; subst o'. cbn [o_state o_final o_value].
  split; [exact Hissues|reflexivity].
Qed.

Lemma no_further_findings_witness :
  exists o, sampleRun "pt-1 pb-1 ml-2 mr-2" = Some o
            /\ o_value o = "py-1 mx-2"
            /\ map headline (o_reports o) = [("pt-1, pb-1", "py-1"); ("ml-2, mr-2", "mx-2")]
            /\ @parsedOf sampleCollaborators sampleGroups (mkSegment "py-1 mx-2" 1 1 "" "" true)
               = validatedClasses (o_state o)
            /\ @reportsOf sampleCollaborators sampleGroups (mkSegment "py-1 mx-2" 1 1 "" "" true)
               = [].
Proof.
  evaluate_run.
  split; [reflexivity|]. split; [reflexivity|]. split; [reflexivity|].
  eapply (@no_further_findings sampleCollaborators sampleGroups
            (mkSegment "pt-1 pb-1 ml-2 mr-2" 1 1 "" "" true) _
            (mkSegment "py-1 mx-2" 1 1 "" "" true)).
  - vm_compute. reflexivity.
  - vm_compute. reflexivity.
Defined.

(** ** The fixes of one location *)

Lemma append_empty_r (s : string) : s +:+ "" = s.
Proof.
  induction s as [|c s IH]; [reflexivity|].
  change (String c (s +:+ "") = String c s). now rewrite IH.
Qed.

Lemma reportIssue_same_text seg orig issues cur reports :
  seg_prefix seg = "" -> seg_suffix seg = "" ->
  (forall r, In r reports -> r_text r = cur /\ r_range r = (seg_start seg, seg_end seg)) ->
  fst (fold_left (reportIssue seg orig) issues (cur, reports)) = cur
  /\ forall r, In r (snd (fold_left (reportIssue seg orig) issues (cur, reports))) ->
       r_text r = cur /\ r_range r = (seg_start seg, seg_end seg).
Proof.
  intros Hp Hs. revert reports. induction issues as [|issue rest IH]; intros reports Hall.
  - split; [reflexivity|exact Hall].
  - cbn [fold_left]. unfold reportIssue at 2 4. cbn [fst snd].
    destruct (negb (String.eqb orig cur)); [|now apply IH].
    rewrite Hp, Hs, append_empty_r. cbn [String.append]. apply IH.
    intros r Hr. apply in_app_or in Hr as [Hr|[<-|[]]]; [now apply Hall|now split].
Qed.

(** Where the segment has no prefix and no suffix (an attribute, a string
    literal), all the fixes of one location replace the same range by the
    same text, the one assembled at line 306. *)
Lemma same_fix_without_delimiters `{Collaborators} tg seg o :
  analyse tg seg = Some o ->
  seg_prefix seg = "" -> seg_suffix seg = "" ->
  forall r, In r (o_reports o) ->
    r_text r = o_value o /\ r_range r = (seg_start seg, seg_end seg).
Proof.
  unfold analyse. destruct (Nat.leb _ 1); [discriminate|].
  intros Ho Hp Hs. inversion Ho; subst o; clear Ho. cbn [o_reports o_value].
  apply reportIssue_same_text; try assumption. intros r [].
Qed.

(** ** The resolver, on the codes present *)

Lemma patch_insert st cls nm code :
  patch st cls nm code
  = <[cls := mkClass nm (variants (deref st cls)) (parentType (deref st cls))
                     (value (deref st cls)) code (leading (deref st cls))
                     (trailing (deref st cls))]> st.
Proof.
  unfold patch, deref. apply list_eq. intros i.
  rewrite list_lookup_alter, list_lookup_insert.
  destruct (decide (cls = i)) as [<-|Hne].
  - destruct (st !! cls) as [c|] eqn:Hc.
    + rewrite decide_True by (split; [reflexivity|now apply lookup_lt_Some in Hc]).
      cbn. now rewrite (list_lookup_total_correct _ _ _ Hc).
    + rewrite decide_False; [reflexivity|].
      intros [_ Hlt]. apply lookup_ge_None in Hc. lia.
  - rewrite decide_False by (intros [? _]; contradiction). reflexivity.
Qed.

Lemma someIs_map st code l :
  someIs code (map (deref st) l)
  = existsb (fun c => String.eqb (shorthand (deref st c)) code) l.
Proof. unfold someIs. induction l as [|a l IH]; [reflexivity|]. cbn [map existsb]. now rewrite IH. Qed.

(** C3: the resolver takes the first branch that applies, in this order.
    Full coverage (the code [all] is present, or both axes are derived)
    merges the whole set: the representative alone is output and every name
    of the set is recorded.  Otherwise the axis [x], then the axis [y], an
    axis being derived from its own code or from its two sides.  Otherwise,
    for the family Border Radius only, the side top, right, bottom or left,
    in this order, a side being derived from its own code or from its two
    corners.  Otherwise every member is output as it is and nothing is
    written.  A merge gives the representative the name built on the body of
    the code and the code itself, outputs it with the members to keep, and
    records the names of the members it replaces. *)
Theorem resolver_priority_order tg classname s cls sameVariantAndValue :
  let st := store s in
  let family := parentType (deref st classname) in
  let has := fun code =>
    existsb (fun c => String.eqb (shorthand (deref st c)) code) sameVariantAndValue in
  let withCodes := fun codes =>
    List.filter (fun c => existsb (String.eqb (shorthand (deref st c))) codes)
                sameVariantAndValue in
  let corners := String.eqb family "Border Radius" in
  let tl := corners && (has "tl" || has "t" || has "all") in
  let tr := corners && (has "tr" || has "t" || has "all") in
  let br := corners && (has "br" || has "b" || has "all") in
  let bl := corners && (has "bl" || has "b" || has "all") in
  let t := has "t" || (tl && tr) in
  let r := has "r" || (tr && br) in
  let b := has "b" || (bl && br) in
  let l := has "l" || (tl && bl) in
  let x := has "x" || (l && r) in
  let y := has "y" || (t && b) in
  let merged := fun code (replaced kept : list Ref) =>
    let c := deref st cls in
    let patchedName := patchedNameOf c (getBodyByShorthand tg family code) in
    mkState (<[cls := mkClass patchedName (variants c) (parentType c) (value c) code
                              (leading c) (trailing c)]> st)
            (validated s ++ cls :: kept)
            (troubles s ++ [(map (fun m => name (deref st m)) replaced, patchedName)]) in
  resolve tg classname s cls sameVariantAndValue
  = if has "all" || (y && x) then merged "all" sameVariantAndValue []
    else if x then merged "x" (withCodes ["l"; "r"]) (withCodes ["t"; "b"])
    else if y then merged "y" (withCodes ["t"; "b"]) (withCodes ["l"; "r"])
    else if corners && t then merged "t" (withCodes ["tl"; "tr"]) (withCodes ["bl"; "br"])
    else if corners && r then merged "r" (withCodes ["tr"; "br"]) (withCodes ["tl"; "bl"])
    else if corners && b then merged "b" (withCodes ["bl"; "br"]) (withCodes ["tl"; "tr"])
    else if corners && l then merged "l" (withCodes ["tl"; "bl"]) (withCodes ["tr"; "br"])
    else mkState st (validated s ++ sameVariantAndValue) (troubles s).
Proof.
  cbv zeta.
  pose proof (resolve_merges tg classname s cls sameVariantAndValue) as Hres.
  cbv zeta in Hres. rewrite flagsOf_flagsBy in Hres.
  assert (Hc : includes ["Border Radius"] (parentType (deref (store s) classname))
               = String.eqb (parentType (deref (store s) classname)) "Border Radius").
  { unfold includes. cbn [existsb]. now rewrite orb_false_r. }
  rewrite Hc in Hres. clear Hc.
  unfold flagsBy, decisionOf in Hres.
  cbn [hasAll hasX hasY hasT hasR hasB hasL supportCorners] in Hres.
  rewrite !someIs_map in Hres. rewrite !orb_false_r in Hres.
  unfold mergeInto, push, names, filterCodes, includes in Hres.
  rewrite !orb_assoc in Hres. revert Hres.
  generalize (String.eqb (parentType (deref (store s) classname)) "Border Radius").
  generalize (existsb (fun c => String.eqb (shorthand (deref (store s) c)) "all") sameVariantAndValue).
  generalize (existsb (fun c => String.eqb (shorthand (deref (store s) c)) "x") sameVariantAndValue).
  generalize (existsb (fun c => String.eqb (shorthand (deref (store s) c)) "y") sameVariantAndValue).
  generalize (existsb (fun c => String.eqb (shorthand (deref (store s) c)) "t") sameVariantAndValue).
  generalize (existsb (fun c => String.eqb (shorthand (deref (store s) c)) "r") sameVariantAndValue).
  generalize (existsb (fun c => String.eqb (shorthand (deref (store s) c)) "b") sameVariantAndValue).
  generalize (existsb (fun c => String.eqb (shorthand (deref (store s) c)) "l") sameVariantAndValue).
  generalize (existsb (fun c => String.eqb (shorthand (deref (store s) c)) "tl") sameVariantAndValue).
  generalize (existsb (fun c => String.eqb (shorthand (deref (store s) c)) "tr") sameVariantAndValue).
  generalize (existsb (fun c => String.eqb (shorthand (deref (store s) c)) "br") sameVariantAndValue).
  generalize (existsb (fun c => String.eqb (shorthand (deref (store s) c)) "bl") sameVariantAndValue).
  intros hbl hbr htr htl hl hb hr ht hy hx hall corners.
  destruct hall, hx, hy, corners, ht, hr, hb, hl; cbn [andb orb];
    try (intros ->; rewrite ?patch_insert; reflexivity);
    destruct htl, htr, hbr, hbl; cbn [andb orb];
    intros ->; rewrite ?patch_insert; reflexivity.
Qed.

Lemma resolver_priority_order_witness :
  resolve sampleGroups 0
    (mkState [mkClass "pl-3" "" "Padding" "3" "l" "" "";
              mkClass "pt-3" "" "Padding" "3" "t" "" "";
              mkClass "pr-3" "" "Padding" "3" "r" "" ""] [] [])
    0 [0; 1; 2]
  = mkState [mkClass "px-3" "" "Padding" "3" "x" "" "";
             mkClass "pt-3" "" "Padding" "3" "t" "" "";
             mkClass "pr-3" "" "Padding" "3" "r" "" ""]
            [0; 1] [(["pl-3"; "pr-3"], "px-3")]
  /\ resolve sampleGroups 0
       (mkState [mkClass "rounded-bl-lg" "" "Border Radius" "lg" "bl" "" "";
                 mkClass "rounded-br-lg" "" "Border Radius" "lg" "br" "" "";
                 mkClass "rounded-tl-lg" "" "Border Radius" "lg" "tl" "" ""] [] [])
       0 [0; 1; 2]
     = mkState [mkClass "rounded-b-lg" "" "Border Radius" "lg" "b" "" "";
                mkClass "rounded-br-lg" "" "Border Radius" "lg" "br" "" "";
                mkClass "rounded-tl-lg" "" "Border Radius" "lg" "tl" "" ""]
               [0; 2] [(["rounded-bl-lg"; "rounded-br-lg"], "rounded-b-lg")]
  /\ resolve sampleGroups 0
       (mkState [mkClass "pt-3" "" "Padding" "3" "t" "" "";
                 mkClass "pl-3" "" "Padding" "3" "l" "" ""] [] [])
       0 [0; 1]
     = mkState [mkClass "pt-3" "" "Padding" "3" "t" "" "";
                mkClass "pl-3" "" "Padding" "3" "l" "" ""]
               [0; 1] [].
Proof.
  split; [|split].
  - exact (resolver_priority_order sampleGroups 0
             (mkState [mkClass "pl-3" "" "Padding" "3" "l" "" "";
                       mkClass "pt-3" "" "Padding" "3" "t" "" "";
                       mkClass "pr-3" "" "Padding" "3" "r" "" ""] [] [])
             0 [0; 1; 2]).
  - exact (resolver_priority_order sampleGroups 0
             (mkState [mkClass "rounded-bl-lg" "" "Border Radius" "lg" "bl" "" "";
                       mkClass "rounded-br-lg" "" "Border Radius" "lg" "br" "" "";
                       mkClass "rounded-tl-lg" "" "Border Radius" "lg" "tl" "" ""] [] [])
             0 [0; 1; 2]).
  - exact (resolver_priority_order sampleGroups 0
             (mkState [mkClass "pt-3" "" "Padding" "3" "t" "" "";
                       mkClass "pl-3" "" "Padding" "3" "l" "" ""] [] [])
             0 [0; 1]).
Defined.

(** * Further properties of the rule *)

(** ** The taxonomy filter and the lookup *)

Lemma find_filter_same {A} (p q : A -> bool) l :
  (forall x, In x l -> p x = true -> q x = true) ->
  find p (List.filter q l) = find p l.
Proof.
  induction l as [|a l IH]; intros H; [reflexivity|]. cbn [List.filter find].
  destruct (q a) eqn:Hq; cbn [find].
  - destruct (p a); [reflexivity|]. apply IH. intros x Hx. apply H. now right.
  - destruct (p a) eqn:Hp.
    + rewrite (H a (or_introl eq_refl) Hp) in Hq. discriminate.
    + apply IH. intros x Hx. apply H. now right.
Qed.

Lemma find_map {A B} (f : A -> B) (p : B -> bool) l :
  find p (map f l) = option_map f (find (fun x => p (f x)) l).
Proof.
  induction l as [|a l IH]; [reflexivity|]. cbn [map find].
  destruct (p (f a)); [reflexivity|exact IH].
Qed.

Lemma find_ext_in {A} (p q : A -> bool) l :
  (forall x, In x l -> p x = q x) -> find p l = find q l.
Proof.
  induction l as [|a l IH]; intros H; [reflexivity|]. cbn [find].
  rewrite (H a (or_introl eq_refl)). destruct (q a); [reflexivity|].
  apply IH. intros x Hx. apply H. now right.
Qed.

(** The filtered taxonomy is made of the groups of the taxonomy whose
    type is a key of [targetProperties], in the same order, each with those
    of its families that [targetProperties] lists for it. *)
Lemma targetGroups_exact defaultGroups g :
  In g (targetGroups defaultGroups)
  <-> exists g0, In g0 defaultGroups
                 /\ In (g_type g0) (map fst targetProperties)
                 /\ g = mkGroup (g_type g0)
                          (List.filter
                             (fun fam => includes (targetPropertiesOf (g_type g0)) (f_type fam))
                             (g_members g0)).
Proof.
  unfold targetGroups. rewrite in_map_iff. split.
  - intros (g0 & <- & Hg0). apply filter_In in Hg0 as [Hin Hty].
    exists g0. split_and!; [exact Hin|now apply includes_In|reflexivity].
  - intros (g0 & Hin & Hty & ->). exists g0. split; [reflexivity|].
    apply filter_In. split; [exact Hin|now apply includes_In].
Qed.

(** X1: filtering a filtered taxonomy changes nothing. *)
Theorem targetGroups_idempotent defaultGroups :
  targetGroups (targetGroups defaultGroups) = targetGroups defaultGroups.
Proof.
  unfold targetGroups at 1.
  rewrite filter_every.
  - rewrite <- (map_id (targetGroups defaultGroups)) at 2.
    apply map_ext_in. intros g Hg. apply targetGroups_exact in Hg as (g0 & _ & _ & ->).
    cbn [g_type g_members]. f_equal. apply filter_every.
    intros fam Hfam. now apply filter_In in Hfam.
  - intros g Hg. apply targetGroups_exact in Hg as (g0 & _ & Hty & ->).
    now apply includes_In.
Qed.

(** X2: a body that the lookup returns is the body of an entry that has the
    code asked for, in a family that has the name asked for. *)
Theorem getBodyByShorthand_sound tg pty sh :
  getBodyByShorthand tg pty sh <> "" ->
  exists g fam e,
    In g tg /\ In fam (g_members g) /\ f_type fam = pty
    /\ In e (f_members fam) /\ e_shorthand e = sh
    /\ e_body e = getBodyByShorthand tg pty sh.
Proof.
  unfold getBodyByShorthand.
  destruct (find _ tg) as [mainGroup|] eqn:Hg; [|now intros []].
  apply find_some in Hg as [Hin _].
  destruct (find _ (g_members mainGroup)) as [typeGroup|] eqn:Hf; [|now intros []].
  apply find_some in Hf as [Hfin Hty]. apply String.eqb_eq in Hty.
  destruct (find _ (f_members typeGroup)) as [type|] eqn:He; [|now intros []].
  apply find_some in He as [Hein Hsh]. apply String.eqb_eq in Hsh.
  intros _. exists mainGroup, typeGroup, type. now split_and!.
Qed.

(** X3: the first match wins at each level.  The lookup reads the first
    group that has a family of the name, in it the first family of the name,
    and in it the first entry of the code; families of the same name further
    on are never consulted. *)
Theorem getBodyByShorthand_first_match tg pty sh before g after fbefore fam fafter :
  tg = before ++ g :: after ->
  (forall g' fam', In g' before -> In fam' (g_members g') -> f_type fam' <> pty) ->
  g_members g = fbefore ++ fam :: fafter ->
  (forall fam', In fam' fbefore -> f_type fam' <> pty) ->
  f_type fam = pty ->
  getBodyByShorthand tg pty sh
  = match find (fun e => String.eqb (e_shorthand e) sh) (f_members fam) with
    | Some e => e_body e
    | None => ""
    end.
Proof.
  intros -> Hbefore Hmembers Hfbefore Hty.
  assert (Hfam : find (fun m => String.eqb (f_type m) pty) (g_members g) = Some fam).
  { rewrite Hmembers. clear Hmembers.
    induction fbefore as [|a fbefore IH]; cbn [app find].
    - rewrite Hty, String.eqb_refl. reflexivity.
    - destruct (String.eqb_spec (f_type a) pty) as [Ha|_].
      + exfalso. apply (Hfbefore a); [now left|exact Ha].
      + apply IH. intros fam' Hin. apply Hfbefore. now right. }
  unfold getBodyByShorthand.
  assert (Hg : find (fun obj => bool_decide (is_Some (find (fun m => String.eqb (f_type m) pty)
                                                           (g_members obj))))
                    (before ++ g :: after) = Some g).
  { clear Hmembers. induction before as [|a before IH]; cbn [app find].
    - rewrite Hfam. rewrite bool_decide_eq_true_2; [reflexivity|now eexists].
    - rewrite bool_decide_eq_false_2.
      + apply IH. intros g' fam' Hin. apply Hbefore. now right.
      + intros [fam' Hsome]. apply find_some in Hsome as [Hin Heq].
        apply String.eqb_eq in Heq. apply (Hbefore a fam'); [now left|exact Hin|exact Heq]. }
  rewrite Hg, Hfam. reflexivity.
Qed.

Lemma getBodyByShorthand_first_match_witness :
  getBodyByShorthand sampleGroups "Margin" "y" = "my".
Proof.
  apply (getBodyByShorthand_first_match sampleGroups "Margin" "y"
           [] (mkGroup "Spacing" [mkFamily "Padding" (box "p"); mkFamily "Margin" (box "m")])
           [mkGroup "Borders" (g_members (nth 1 sampleGroups (mkGroup "" [])))]
           [mkFamily "Padding" (box "p")] (mkFamily "Margin" (box "m")) []).
  - reflexivity.
  - intros g' fam' [].
  - reflexivity.
  - intros fam' [<-|[]]. discriminate.
  - reflexivity.
Defined.

Lemma getBodyByShorthand_sound_witness :
  exists g fam e,
    In g sampleGroups /\ In fam (g_members g) /\ f_type fam = "Padding"
    /\ In e (f_members fam) /\ e_shorthand e = "x"
    /\ e_body e = getBodyByShorthand sampleGroups "Padding" "x".
Proof.
  apply (getBodyByShorthand_sound sampleGroups "Padding" "x"). vm_compute. discriminate.
Defined.

(** X4: on the filtered taxonomy, the lookup of a family that
    [targetProperties] does not list returns the empty string, whatever the
    taxonomy has for this family. *)
Theorem getBodyByShorthand_not_targeted defaultGroups pty sh :
  (forall p, In p targetProperties -> ~ In pty (snd p)) ->
  getBodyByShorthand (targetGroups defaultGroups) pty sh = "".
Proof.
  intros Hno. apply getBodyByShorthand_absent.
  intros g fam e Hg Hfam Hty _ _.
  destruct (targetGroups_allowed defaultGroups g fam Hg Hfam) as [_ Hallowed].
  rewrite Hty in Hallowed. unfold targetPropertiesOf in Hallowed.
  destruct (find _ targetProperties) as [p|] eqn:Hp; [|destruct Hallowed].
  apply find_some in Hp as [Hp _]. exact (Hno p Hp Hallowed).
Qed.

Lemma getBodyByShorthand_not_targeted_witness :
  getBodyByShorthand
    (targetGroups [mkGroup "Sizing" [mkFamily "Width" [mkEntry "all" "w"]];
                   mkGroup "Spacing" [mkFamily "Padding" (box "p");
                                      mkFamily "Space Between" [mkEntry "x" "space-x"]]])
    "Space Between" "x" = "".
Proof.
  apply getBodyByShorthand_not_targeted.
  intros p Hp Hin. cbn in Hp.
  repeat (destruct Hp as [<-|Hp]; [cbn in Hin; intuition discriminate|]). destruct Hp.
Defined.

(** X5: the filter does not change what the lookup returns for a family
    that [targetProperties] lists under each group in which the taxonomy has
    it. *)
Theorem getBodyByShorthand_targetGroups defaultGroups pty sh :
  (forall g fam, In g defaultGroups -> In fam (g_members g) -> f_type fam = pty ->
     In (g_type g) (map fst targetProperties)
     /\ In pty (targetPropertiesOf (g_type g))) ->
  getBodyByShorthand (targetGroups defaultGroups) pty sh
  = getBodyByShorthand defaultGroups pty sh.
Proof.
  intros H.
  set (byType := fun m : Family => String.eqb (f_type m) pty).
  set (allowed := fun g (sub : Family) => includes (targetPropertiesOf (g_type g)) (f_type sub)).
  assert (Hmembers : forall g, In g defaultGroups ->
            find byType (List.filter (allowed g) (g_members g)) = find byType (g_members g)).
  { intros g Hg. apply find_filter_same. intros fam Hfam Hty.
    apply String.eqb_eq in Hty. destruct (H g fam Hg Hfam Hty) as [_ Hin].
    unfold allowed. rewrite Hty. now apply includes_In. }
  unfold getBodyByShorthand, targetGroups. fold byType.
  rewrite find_map. cbn [g_members g_type].
  rewrite (find_ext_in _ (fun obj => bool_decide (is_Some (find byType (g_members obj))))).
  2:{ intros g Hg. apply filter_In in Hg as [Hg _]. fold (allowed g).
      now rewrite Hmembers. }
  rewrite find_filter_same.
  2:{ intros g Hg Hsome. apply bool_decide_eq_true_1 in Hsome as [fam Hfam].
      apply find_some in Hfam as [Hfam Hty]. apply String.eqb_eq in Hty.
      destruct (H g fam Hg Hfam Hty) as [Hin _]. now apply includes_In. }
  destruct (find _ defaultGroups) as [mainGroup|] eqn:Hg; [|reflexivity].
  cbn [option_map g_members g_type]. apply find_some in Hg as [Hg _].
  fold (allowed mainGroup). now rewrite Hmembers.
Qed.

Lemma getBodyByShorthand_targetGroups_witness :
  getBodyByShorthand (targetGroups sampleGroups) "Border Radius" "tl"
  = getBodyByShorthand sampleGroups "Border Radius" "tl".
Proof.
  apply getBodyByShorthand_targetGroups.
  intros g fam Hg Hfam Hty. cbn in Hg.
  destruct Hg as [<-|[<-|[]]]; cbn in Hfam.
  - destruct Hfam as [<-|[<-|[]]]; discriminate.
  - cbn. tauto.
Defined.

(** ** The decisions of a family without corners *)

(** X6: for a family other than Border Radius the corners are never looked
    at and no side is ever merged: the set is merged as a whole when it has
    the code [all] or both axes, an axis being present by its own code or by
    its two sides; into [x], then into [y], when it has this axis; and is
    kept otherwise. *)
Theorem decision_without_corners pty same :
  pty <> "Border Radius" ->
  let p := fun code => someIs code same in
  let x := p "x" || (p "l" && p "r") in
  let y := p "y" || (p "t" && p "b") in
  decisionOf (flagsOf pty same)
  = if p "all" || (y && x) then MergeAll
    else if x then MergeAxis "x"
    else if y then MergeAxis "y"
    else KeepAll.
Proof.
  intros Hne. cbv zeta. rewrite flagsOf_flagsBy.
  assert (Hc : includes ["Border Radius"] pty = false).
  { apply includes_not_In. intros [Heq|[]]. now apply Hne. }
  rewrite Hc. unfold decisionOf, flagsBy. cbn [hasAll hasX hasY supportCorners andb].
  rewrite !orb_false_r. reflexivity.
Qed.

Lemma decision_without_corners_witness :
  decisionOf (flagsOf "Padding"
                [mkClass "pt-3" "" "Padding" "3" "t" "" "";
                 mkClass "pb-3" "" "Padding" "3" "b" "" "";
                 mkClass "pl-3" "" "Padding" "3" "l" "" ""])
  = MergeAxis "y".
Proof.
  apply (decision_without_corners "Padding"
           [mkClass "pt-3" "" "Padding" "3" "t" "" "";
            mkClass "pb-3" "" "Padding" "3" "b" "" "";
            mkClass "pl-3" "" "Padding" "3" "l" "" ""]).
  discriminate.
Defined.

(** ** The fixes *)

Lemma reportIssue_texts seg orig issues cur reports :
  exists reports',
    snd (fold_left (reportIssue seg orig) issues (cur, reports)) = reports ++ reports'
    /\ forall i r, reports' !! i = Some r ->
         r_range r = (seg_start seg, seg_end seg)
         /\ r_text r = Nat.iter (S i) (fun v => seg_prefix seg +:+ v +:+ seg_suffix seg) cur.
Proof.
  revert cur reports. induction issues as [|issue rest IH]; intros cur reports.
  - exists []. rewrite app_nil_r. split; [reflexivity|]. intros i r Hr. discriminate.
  - cbn [fold_left]. unfold reportIssue at 2. cbn [fst snd].
    destruct (negb (String.eqb orig cur)); [|apply IH].
    destruct (IH (seg_prefix seg +:+ cur +:+ seg_suffix seg)
                 (reports ++ [mkReport (join ", " (fst issue)) (snd issue)
                                       (seg_start seg, seg_end seg)
                                       (seg_prefix seg +:+ cur +:+ seg_suffix seg)]))
      as (reports' & Hsnd & Hall).
    eexists (_ :: reports'). rewrite Hsnd, <- app_assoc. split; [reflexivity|].
    intros [|i] r Hr.
    + inversion Hr; subst r. split; reflexivity.
    + destruct (Hall i r Hr) as [Hrange Htext]. split; [exact Hrange|].
      rewrite Htext. symmetry.
      exact (Nat.iter_succ_r (S i) (fun v => seg_prefix seg +:+ v +:+ seg_suffix seg) cur).
Qed.

(** X7: every fix of a location replaces the range from [start] to [end]; the
    first one puts there the prefix, the assembled text and the suffix, and
    the fix of rank [i] the assembled text wrapped [i + 1] times, the wrapping
    being made anew for each report (line 315). *)
Theorem fix_of_each_report `{Collaborators} tg seg o i r :
  analyse tg seg = Some o ->
  o_reports o !! i = Some r ->
  r_range r = (seg_start seg, seg_end seg)
  /\ r_text r = Nat.iter (S i) (fun v => seg_prefix seg +:+ v +:+ seg_suffix seg) (o_value o).
Proof.
  unfold analyse. destruct (Nat.leb _ 1); [discriminate|].
  intros Ho. inversion Ho; subst o; clear Ho. cbn [o_reports o_value].
  set (s := validate tg (parsedOf tg seg)). set (v := assemble _ _ _ s).
  destruct (reportIssue_texts seg (originalPatchedOf seg) (issuesOf s) v [])
    as (reports' & -> & Hall).
  apply Hall.
Qed.

Lemma fix_of_each_report_witness :
  exists o r, sampleRun "mt-3 mb-3 p-1" = Some o
              /\ o_reports o !! 0 = Some r
              /\ r_range r = (1, 1)%Z
              /\ r_text r = "my-3 p-1".
Proof.
  pose proof (@fix_of_each_report sampleCollaborators sampleGroups
                (mkSegment "mt-3 mb-3 p-1" 1 1 "" "" true) _ 0 _
                ltac:(vm_compute; reflexivity) ltac:(vm_compute; reflexivity)) as Hfix.
  eexists _, _. split; [vm_compute; reflexivity|]. split; [reflexivity|]. exact Hfix.
Defined.

(** ** The ranges of the fixes of a node *)

Lemma reportsOf_range `{Collaborators} tg seg r :
  In r (reportsOf tg seg) -> r_range r = (seg_start seg, seg_end seg).
Proof.
  unfold reportsOf, analyse. destruct (Nat.leb _ 1); [intros []|].
  cbn [o_reports].
  set (s := validate tg (parsedOf tg seg)). set (v := assemble _ _ _ s).
  destruct (reportIssue_texts seg (originalPatchedOf seg) (issuesOf s) v [])
    as (reports' & -> & Hall).
  intros Hin. apply list_elem_of_In, list_elem_of_lookup in Hin as [i Hi].
  now destruct (Hall i r Hi).
Qed.

Lemma parseArg_range `{Collaborators} tg :
  forall arg r, In r (parseArg tg arg) -> In (r_range r) (fixRanges arg).
Proof.
  fix IH 1. intros arg r. destruct arg as [es qs|c a|rt|v rg|raw rg txt]; cbn [parseArg fixRanges].
  - assert (Hlist : forall l, In r (flat_map (parseArg tg) l) ->
                      In (r_range r) (flat_map fixRanges l)).
    { induction l as [|x l IHl]; cbn [flat_map]; [intros []|].
      intros Hin. apply in_app_or in Hin as [Hin|Hin]; apply in_or_app;
        [left; now apply IH|right; now apply IHl]. }
    intros Hin. apply in_app_or in Hin as [Hin|Hin]; apply in_or_app;
      [left|right]; now apply Hlist.
  - intros Hin. apply in_app_or in Hin as [Hin|Hin]; apply in_or_app;
      [left|right]; now apply IH.
  - apply IH.
  - intros Hin. apply reportsOf_range in Hin. left. now rewrite Hin.
  - intros Hin. apply reportsOf_range in Hin. left. rewrite Hin. now destruct rg.
Qed.

Lemma nameIs_listed name l :
  existsb (nameIs name) l = true -> exists n, name = Some n /\ In n l.
Proof.
  intros Hex. apply existsb_exists in Hex as (s & Hs & Heq).
  destruct name as [n|]; [|discriminate]. cbn [nameIs] in Heq.
  apply String.eqb_eq in Heq. subst s. now exists n.
Qed.

(** X8: a node gives a report only if the rule handles it: a valid
    attribute, a call whose callee name is in [callees], or a tagged
    template whose tag name is in [tags].  A fix never reaches outside the
    text that holds the class names: the range of every report is the inside
    of the attribute value (its range without the two quotes), the inside of
    a string literal or a template element among the arguments of the call,
    or of the template of the tag. *)
Theorem visit_ranges `{Collaborators} tg callees tags node r :
  In r (visit tg callees tags node) ->
  handled callees tags node /\ In (r_range r) (nodeFixRanges node).
Proof.
  destruct node as [valid v rg|callee args|tag quasi|valid v rg];
    cbn [visit nodeFixRanges handled parseForShorthandCandidates].
  - destruct valid; cbn [negb]; [|intros []].
    intros Hin. split; [reflexivity|]. apply reportsOf_range in Hin. left. now rewrite Hin.
  - destruct (existsb (nameIs callee) callees) eqn:Hex; cbn [negb]; [|intros []].
    intros Hin. split; [now apply nameIs_listed|]. revert Hin.
    induction args as [|a args IH]; cbn [flat_map]; [intros []|].
    intros Hin. apply in_app_or in Hin as [Hin|Hin]; apply in_or_app;
      [left; now apply parseArg_range in Hin|right; now apply IH].
  - destruct (existsb (nameIs tag) tags) eqn:Hex; cbn [negb]; [|intros []].
    intros Hin. split; [now apply nameIs_listed|now apply parseArg_range in Hin].
  - destruct valid; cbn [negb]; [|intros []].
    intros Hin. split; [reflexivity|]. apply reportsOf_range in Hin. left. now rewrite Hin.
Qed.

Lemma visit_ranges_witness :
  handled ["ctl"] []
    (CallExpression (Some "ctl")
       [ConditionalExpression (Literal "p-1" (20, 25)%Z)
                              (Literal "mt-3 mb-3" (28, 39)%Z)])
  /\ In (29, 38)%Z
        (nodeFixRanges
           (CallExpression (Some "ctl")
              [ConditionalExpression (Literal "p-1" (20, 25)%Z)
                                     (Literal "mt-3 mb-3" (28, 39)%Z)])).
Proof.
  apply (@visit_ranges sampleCollaborators sampleGroups ["ctl"] []
           (CallExpression (Some "ctl")
              [ConditionalExpression (Literal "p-1" (20, 25)%Z)
                                     (Literal "mt-3 mb-3" (28, 39)%Z)])
           (mkReport "mt-3, mb-3" "my-3" (29, 38)%Z "my-3")).
  vm_compute. left. reflexivity.
Defined.

(** ** The tokens set aside *)

Lemma popSpaces_reassemble classNames :
  fst (popSpaces classNames) ++ option_list (snd (popSpaces classNames)) = classNames
  /\ forall c, snd (popSpaces classNames) = Some c -> spacesOnly c = true.
Proof.
  unfold popSpaces. destruct (last classNames) as [c|] eqn:Hlast; cbn [fst snd option_list].
  - destruct (spacesOnly c) eqn:Hc; cbn [fst snd option_list].
    + apply last_Some in Hlast as [l' ->]. rewrite removelast_last. split; [reflexivity|].
      intros c' Heq. now inversion Heq; subst.
    + rewrite app_nil_r. split; [reflexivity|discriminate].
  - rewrite app_nil_r. split; [reflexivity|discriminate].
Qed.

Lemma shiftSpaces_reassemble classNames :
  option_list (fst (shiftSpaces classNames)) ++ snd (shiftSpaces classNames) = classNames
  /\ forall c, fst (shiftSpaces classNames) = Some c -> spacesOnly c = true.
Proof.
  unfold shiftSpaces. destruct classNames as [|c rest]; cbn [fst snd option_list app].
  - split; [reflexivity|discriminate].
  - destruct (spacesOnly c) eqn:Hc; cbn [fst snd option_list app].
    + split; [reflexivity|]. intros c' Heq. now inversion Heq; subst.
    + split; [reflexivity|discriminate].
Qed.

(** X9: setting the whitespace aside loses no token.  The token set aside at
    the start, the class names and the token set aside at the end are, in
    this order, the tokens of the extractor; a token set aside is made of
    whitespace only, and none is set aside on a single-line segment. *)
Theorem tokens_reassemble `{Collaborators} seg :
  option_list (t_before (tokensOf seg)) ++ t_classNames (tokensOf seg)
    ++ option_list (t_after (tokensOf seg))
  = getClassNamesFromAttribute (originalClassNamesValue seg) (seg_trim seg)
  /\ (forall c, t_before (tokensOf seg) = Some c \/ t_after (tokensOf seg) = Some c ->
        spacesOnly c = true /\ isSingleLine (originalClassNamesValue seg) = false).
Proof.
  unfold tokensOf.
  set (classNames := getClassNamesFromAttribute _ _).
  destruct (isSingleLine _); cbn [t_before t_classNames t_after option_list app].
  - rewrite app_nil_r. split; [reflexivity|]. intros c [Hc|Hc]; discriminate.
  - destruct (shiftSpaces_reassemble classNames) as [Hs1 Hs2].
    destruct (popSpaces_reassemble (snd (shiftSpaces classNames))) as [Hp1 Hp2].
    split.
    + rewrite Hp1. exact Hs1.
    + intros c [Hc|Hc]; split; try reflexivity; [now apply Hs2|now apply Hp2].
Qed.

(** ** What the run writes and what it leaves *)

Lemma fold_left_preserves {A B} (P : A -> Prop) (f : A -> B -> A) l a :
  P a -> (forall a x, P a -> P (f a x)) -> P (fold_left f l a).
Proof.
  intros Ha Hstep. revert a Ha. induction l as [|x l IH]; intros a Ha; [exact Ha|].
  cbn [fold_left]. apply IH. now apply Hstep.
Qed.

Lemma mergeInto_renamed parsed tg classname s cls code replaced kept :
  renamedByMerge parsed s ->
  renamedByMerge parsed (mergeInto tg classname s cls code replaced kept).
Proof.
  intros Hs r. unfold mergeInto. cbn [store troubles].
  set (nm := patchedNameOf _ _).
  destruct (Nat.eq_dec r cls) as [->|Hne].
  - destruct (Nat.lt_ge_cases cls (length (store s))) as [Hlt|Hge].
    + right. exists (names (store s) replaced, nm). split; [apply in_or_app; right; now left|].
      now rewrite deref_patch_eq.
    + assert (Hsame : deref (patch (store s) cls nm code) cls = deref (store s) cls).
      { unfold deref, patch. rewrite (list_lookup_total_alter _ (store s) cls cls).
        destruct (decide _) as [[_ Hlt]|_]; [lia|reflexivity]. }
      rewrite Hsame. destruct (Hs cls) as [Heq|(t & Ht & Hn)]; [now left|right].
      exists t. split; [apply in_or_app; now left|exact Hn].
  - rewrite deref_patch_ne by exact Hne.
    destruct (Hs r) as [Heq|(t & Ht & Hn)]; [now left|right].
    exists t. split; [apply in_or_app; now left|exact Hn].
Qed.

Lemma resolve_renamed parsed tg classname s cls same :
  renamedByMerge parsed s -> renamedByMerge parsed (resolve tg classname s cls same).
Proof.
  intros Hs. pose proof (resolve_merges tg classname s cls same) as Hres. cbv zeta in Hres.
  destruct (decisionOf _); rewrite Hres; try (now apply mergeInto_renamed). exact Hs.
Qed.

Lemma visitSameType_renamed parsed tg classname sameType acc cls :
  renamedByMerge parsed (fst acc) ->
  renamedByMerge parsed (fst (visitSameType tg classname sameType acc cls)).
Proof.
  intros Hs. unfold visitSameType.
  destruct (includes _ _); [exact Hs|]. cbn [fst].
  destruct (Nat.eqb _ 1); [exact Hs|].
  destruct (negb _); [now apply resolve_renamed|exact Hs].
Qed.

Lemma visitParsed_renamed parsed tg acc classname :
  renamedByMerge parsed (fst acc) ->
  renamedByMerge parsed (fst (visitParsed tg acc classname)).
Proof.
  intros Hs. unfold visitParsed.
  destruct (String.eqb _ ""); [exact Hs|].
  destruct (negb _); [|exact Hs]. cbn [fst].
  apply (fold_left_preserves (fun a => renamedByMerge parsed (fst a))); [exact Hs|].
  intros a x. apply visitSameType_renamed.
Qed.

Lemma validate_renamed tg parsed : renamedByMerge parsed (validate tg parsed).
Proof.
  unfold validate.
  apply (fold_left_preserves (fun a => renamedByMerge parsed (fst a))).
  - intros r. now left.
  - intros a x. apply visitParsed_renamed.
Qed.

(** X10: the run writes nothing but the name and the shorthand of the
    representatives of its merges.  The array keeps its length, every
    descriptor keeps its parentType, variants, value, leading and trailing
    text, a descriptor that is not as parsed bears the patched name of a
    recorded merge, and the output only holds descriptors of the array. *)
Theorem run_writes_names_only tg parsed :
  let s := validate tg parsed in
  length (store s) = length parsed
  /\ (forall r, sameFrame (deref (store s) r) (deref parsed r))
  /\ (forall r, deref (store s) r <> deref parsed r ->
        exists t, In t (troubles s) /\ name (deref (store s) r) = snd t)
  /\ (forall r, In r (validated s) -> r < length parsed).
Proof.
  cbv zeta. pose proof (validate_common tg parsed) as HC.
  destruct (c_frame _ _ _ HC) as [Hlen Hframe]. split_and!.
  - exact Hlen.
  - exact Hframe.
  - intros r Hne. destruct (validate_renamed tg parsed r) as [Heq|Ht]; [contradiction|exact Ht].
  - apply (c_bound _ _ _ HC).
Qed.

Lemma store_unchanged tg parsed :
  troubles (validate tg parsed) = [] -> store (validate tg parsed) = parsed.
Proof.
  intros Hnone.
  destruct (c_frame _ _ _ (validate_common tg parsed)) as [Hlen _].
  etransitivity; [symmetry; apply map_deref_seq|]. rewrite Hlen.
  etransitivity; [|apply map_deref_seq]. apply map_ext. intros r.
  destruct (validate_renamed tg parsed r) as [Heq|(t & Ht & _)]; [exact Heq|].
  rewrite Hnone in Ht. destruct Ht.
Qed.

Lemma visitGroup_small tg set : length set <= 1 -> snd (visitGroup tg set) = [].
Proof. destruct set as [|c [|d rest]]; cbn [length visitGroup snd]; [reflexivity..|lia]. Qed.

Lemma NoDup_all_equal {A} (l : list A) c :
  List.NoDup l -> (forall x, In x l -> x = c) -> length l <= 1.
Proof.
  intros Hnd Hall. destruct l as [|a [|b l]]; cbn [length]; try lia.
  exfalso. inversion Hnd as [|? ? Hnin _]; subst. apply Hnin.
  assert (Ha : a = c) by (apply Hall; now left).
  assert (Hb : b = c) by (apply Hall; right; now left).
  left. congruence.
Qed.

Lemma members_NoDup parsed cls : List.NoDup (members parsed cls).
Proof. unfold members. apply List.NoDup_filter, List.seq_NoDup. Qed.

(** Without two descriptors in one candidate set, no merge is recorded and
    nothing is written. *)
Lemma nothing_shared_nothing_merged tg parsed :
  (forall r1 r2, r1 < length parsed -> r2 < length parsed ->
     parentType (deref parsed r1) <> "" ->
     sameTriple (deref parsed r1) (deref parsed r2) = true -> r1 = r2) ->
  troubles (validate tg parsed) = [] /\ store (validate tg parsed) = parsed.
Proof.
  intros Hdistinct.
  assert (Hnone : troubles (validate tg parsed) = []).
  { destruct (troubles (validate tg parsed)) as [|t ts] eqn:Htr; [reflexivity|exfalso].
    destruct (c_explained _ _ _ (validate_common tg parsed) t) as (cls & Hcls & Hfam & Hin).
    { rewrite Htr. now left. }
    rewrite visitGroup_small in Hin; [destruct Hin|].
    rewrite length_map. apply (NoDup_all_equal _ cls); [apply members_NoDup|].
    intros r Hr. apply members_facts in Hr as (Hlt & Hs & Hp & _).
    apply Hdistinct; try assumption. now rewrite Hp. }
  split; [exact Hnone|now apply store_unchanged].
Qed.

(** X11: a segment of which no class is recognised is given back as it is.
    When every descriptor has the empty parentType, the output is the array
    in its order, with the descriptors as parsed, and no merge is recorded. *)
Theorem only_passthrough_is_identity tg parsed :
  (forall r, r < length parsed -> parentType (deref parsed r) = "") ->
  validated (validate tg parsed) = seq 0 (length parsed)
  /\ validatedClasses (validate tg parsed) = parsed
  /\ troubles (validate tg parsed) = [].
Proof.
  intros Hpass.
  destruct (nothing_shared_nothing_merged tg parsed) as [Hnone Hstore].
  { intros r1 r2 H1 _ Hfam. now rewrite Hpass in Hfam. }
  assert (Hval : validated (validate tg parsed) = seq 0 (length parsed)).
  { pose proof (validate_passthrough tg parsed) as Hfilter.
    rewrite !filter_every in Hfilter; [exact Hfilter| |].
    - intros r Hr. apply in_seq in Hr. unfold isPassthrough.
      rewrite Hpass by lia. reflexivity.
    - intros r Hr. apply (c_bound _ _ _ (validate_common tg parsed)) in Hr.
      unfold isPassthrough. now rewrite Hpass. }
  split_and!; [exact Hval| |exact Hnone].
  unfold validatedClasses. rewrite Hval, Hstore. apply map_deref_seq.
Qed.

Lemma only_passthrough_is_identity_witness :
  validated (validate sampleGroups
               [mkClass "flex" "" "" "" "" "" ""; mkClass "block" "" "" "" "" "" ""]) = [0; 1]
  /\ validatedClasses (validate sampleGroups
               [mkClass "flex" "" "" "" "" "" ""; mkClass "block" "" "" "" "" "" ""])
     = [mkClass "flex" "" "" "" "" "" ""; mkClass "block" "" "" "" "" "" ""]
  /\ troubles (validate sampleGroups
               [mkClass "flex" "" "" "" "" "" ""; mkClass "block" "" "" "" "" "" ""]) = [].
Proof.
  apply (only_passthrough_is_identity sampleGroups
           [mkClass "flex" "" "" "" "" "" ""; mkClass "block" "" "" "" "" "" ""]).
  intros r Hr. cbn [length] in Hr. destruct r as [|[|r]]; [reflexivity|reflexivity|lia].
Defined.

(** X12: a finding only names classes of the source text.  Every report
    carries the message data of an element of [troubles]: its class names
    are the names of this element, joined by a comma and a space, and its
    shorthand is the patched name of this element; the names are those, as
    parsed, of a non-empty list of descriptors of the segment. *)
Theorem findings_name_parsed_classes `{Collaborators} tg seg o r :
  analyse tg seg = Some o ->
  In r (o_reports o) ->
  exists issue (subsumed : list Ref),
    In issue (troubles (o_state o))
    /\ r_classnames r = join ", " (fst issue)
    /\ r_shorthand r = snd issue
    /\ fst issue = names (parsedOf tg seg) subsumed
    /\ subsumed <> []
    /\ forall c, In c subsumed -> c < length (parsedOf tg seg).
Proof.
  intros Ho Hr.
  assert (Hstate : o_state o = validate tg (parsedOf tg seg)).
  { unfold analyse in Ho. destruct (Nat.leb _ 1); [discriminate|]. now inversion Ho. }
  assert (Hrep : exists issue, In issue (issuesOf (o_state o))
                               /\ r_classnames r = join ", " (fst issue)
                               /\ r_shorthand r = snd issue).
  { unfold analyse in Ho. destruct (Nat.leb _ 1); [discriminate|].
    inversion Ho; subst o; clear Ho. cbn [o_reports o_state] in *.
    set (s := validate tg (parsedOf tg seg)) in *. set (v := assemble _ _ _ s) in *.
    destruct (reportIssue_fold seg (originalPatchedOf seg) (issuesOf s) v [])
      as (n & reports' & Hsnd & Hmap & _).
    rewrite Hsnd in Hr. cbn [app] in Hr.
    assert (Hh : In (headline r) (map headlineOf (take n (issuesOf s)))).
    { rewrite <- Hmap. now apply in_map. }
    apply in_map_iff in Hh as (issue & Hhead & Hin). apply in_take in Hin.
    exists issue. split; [exact Hin|]. unfold headline, headlineOf in Hhead.
    now inversion Hhead. }
  destruct Hrep as (issue & Hissue & Hname & Hshort).
  apply issuesOf_spec in Hissue as [Hin Hne].
  rewrite Hstate in Hin.
  destruct (c_explained _ _ _ (validate_common tg (parsedOf tg seg)) issue Hin)
    as (cls & _ & _ & Hvis).
  apply visitGroup_trouble in Hvis as (c & rest & code & codes & _ & Hfst & _).
  exists issue, (filterCodes (parsedOf tg seg) codes (members (parsedOf tg seg) cls)).
  rewrite Hstate. split_and!.
  - exact Hin.
  - exact Hname.
  - exact Hshort.
  - now rewrite Hfst, names_map, filterCodes_byCodes.
  - intros Hnil. apply Hne. rewrite Hfst, <- filterCodes_byCodes, Hnil. reflexivity.
  - intros c0 Hc0. apply filterCodes_incl in Hc0. now apply members_facts in Hc0.
Qed.

Lemma findings_name_parsed_classes_witness :
  exists o r, sampleRun "mt-3 mb-3" = Some o /\ In r (o_reports o)
    /\ exists issue (subsumed : list Ref),
         In issue (troubles (o_state o))
         /\ r_classnames r = join ", " (fst issue)
         /\ r_shorthand r = snd issue
         /\ fst issue
            = names (@parsedOf sampleCollaborators sampleGroups
                       (mkSegment "mt-3 mb-3" 1 1 "" "" true)) subsumed
         /\ subsumed <> []
         /\ forall c, In c subsumed ->
              c < length (@parsedOf sampleCollaborators sampleGroups
                            (mkSegment "mt-3 mb-3" 1 1 "" "" true)).
Proof.
  pose proof (@findings_name_parsed_classes sampleCollaborators sampleGroups
                (mkSegment "mt-3 mb-3" 1 1 "" "" true) _ _
                ltac:(vm_compute; reflexivity) ltac:(vm_compute; left; reflexivity)) as Hnames.
  eexists _, _. split; [vm_compute; reflexivity|]. split; [left; reflexivity|]. exact Hnames.
Defined.

(** ** The output is not longer than the input *)

Lemma keptCodes_known code k : In k (keptCodes code) -> In k codes11.
Proof.
  unfold keptCodes.
  repeat (destruct (String.eqb code _));
    cbn; intros [<-|[<-|[]]]; tauto.
Qed.

Lemma keptLeavesOne_ext corners hq hq' pr pr' :
  (forall k, In k codes11 -> hq k = hq' k) ->
  (forall k, In k codes11 -> pr k = pr' k) ->
  keptLeavesOne corners hq pr = keptLeavesOne corners hq' pr'.
Proof.
  intros Hh Hp. unfold keptLeavesOne.
  rewrite (flagsBy_ext corners (fun k => hq k || pr k) (fun k => hq' k || pr' k))
    by (intros k Hk; now rewrite Hh, Hp).
  destruct (decisionOf _) as [|code|code|]; try reflexivity; f_equal;
    try (f_equal; apply existsb_ext_in; intros k Hk; apply Hh; now apply keptCodes_known in Hk);
    apply existsb_ext_in; intros k Hk; now rewrite Hp.
Qed.

Lemma keptLeavesOne_always corners h pr :
  keptLeavesOne corners (String.eqb h) pr = true.
Proof.
  assert (Hall : keptLeavesOneEverywhere = true) by (vm_compute; reflexivity).
  unfold keptLeavesOneEverywhere in Hall.
  rewrite forallb_forall in Hall.
  assert (Hc : In corners [true; false]) by (destruct corners; cbn; tauto).
  specialize (Hall corners Hc). rewrite forallb_forall in Hall.
  set (h0 := if includes codes11 h then h else "").
  assert (Hh0 : In h0 ("" :: codes11)).
  { unfold h0. destruct (includes codes11 h) eqn:Hin; [right; now apply includes_In|now left]. }
  specialize (Hall h0 Hh0). rewrite forallb_forall in Hall.
  specialize (Hall (map pr codes11) (allBools_complete (map pr codes11))).
  rewrite <- Hall. apply keptLeavesOne_ext.
  - intros k Hk. unfold h0. destruct (includes codes11 h) eqn:Hin; [reflexivity|].
    apply includes_not_In in Hin.
    destruct (String.eqb_spec h k) as [->|_]; [contradiction|].
    destruct (String.eqb_spec "" k) as [<-|_]; [|reflexivity].
    cbn in Hk. intuition discriminate.
  - intros k Hk. symmetry. now apply lookupCode_map.
Qed.

Lemma filter_length_lt {A} (p : A -> bool) l x :
  In x l -> p x = false -> length (List.filter p l) < length l.
Proof.
  induction l as [|a l IH]; intros Hin Hp; [destruct Hin|]. cbn [List.filter length].
  destruct Hin as [->|Hin].
  - rewrite Hp. pose proof (filter_length_le p l). lia.
  - specialize (IH Hin Hp). destruct (p a); cbn [length]; lia.
Qed.

Lemma merged_set_not_longer c d rest c' code :
  decisionOf (flagsOf (parentType c) (c :: d :: rest)) = MergeAxis code
  \/ decisionOf (flagsOf (parentType c) (c :: d :: rest)) = MergeSide code ->
  length (c' :: (if includes (keptCodes code) (shorthand c) then [c'] else [])
             ++ byCodes (keptCodes code) (d :: rest))
  <= length (c :: d :: rest).
Proof.
  intros Hdec.
  pose proof (filter_length_le (fun m => includes (keptCodes code) (shorthand m)) (d :: rest))
    as Hle. fold (byCodes (keptCodes code) (d :: rest)) in Hle.
  destruct (includes (keptCodes code) (shorthand c)) eqn:Hkept;
    cbn [length app] in *; [|lia].
  enough (length (byCodes (keptCodes code) (d :: rest)) < length (d :: rest))
    by (cbn [length] in *; lia).
  pose proof (keptLeavesOne_always (includes ["Border Radius"] (parentType c)) (shorthand c)
                (fun k => someIs k (d :: rest))) as Hone.
  unfold keptLeavesOne in Hone.
  change (fun k => String.eqb (shorthand c) k || someIs k (d :: rest))
    with (fun k => someIs k (c :: d :: rest)) in Hone.
  rewrite <- flagsOf_flagsBy in Hone.
  assert (Hex : existsb (fun k => negb (includes (keptCodes code) k) && someIs k (d :: rest))
                        codes11 = true).
  { destruct Hdec as [Hdec|Hdec]; rewrite Hdec in Hone;
      fold (includes (keptCodes code) (shorthand c)) in Hone;
      rewrite Hkept in Hone; exact Hone. }
  apply existsb_exists in Hex as (k & _ & Hk). apply andb_true_iff in Hk as [Hnk Hsome].
  apply negb_true_iff in Hnk. unfold someIs in Hsome.
  apply existsb_exists in Hsome as (m & Hm & Hcode). apply String.eqb_eq in Hcode.
  unfold byCodes. apply (filter_length_lt _ _ m Hm). now rewrite Hcode.
Qed.

Lemma visitGroup_not_longer tg set : length (fst (visitGroup tg set)) <= length set.
Proof.
  destruct set as [|c [|d rest]]; cbn [visitGroup fst length]; try lia.
  destruct (decisionOf (flagsOf (parentType c) (c :: d :: rest))) as [|code|code|] eqn:Hdec;
    cbn [fst].
  - cbn [length]. lia.
  - apply (merged_set_not_longer c d rest). now left.
  - apply (merged_set_not_longer c d rest). now right.
  - cbn [length]. lia.
Qed.

Lemma filter_length_split {A} (p : A -> bool) l :
  length l = length (List.filter p l) + length (List.filter (fun x => negb (p x)) l).
Proof.
  induction l as [|a l IH]; [reflexivity|]. cbn [List.filter length].
  destruct (p a); cbn [negb length]; lia.
Qed.

(** Lists are compared class by class. *)
Lemma length_by_classes (e : nat -> nat -> bool) :
  (forall c, e c c = true) ->
  (forall c c' x, e c x = true -> e c' x = true -> e c c' = true) ->
  forall v u,
    (forall c, In c v -> length (List.filter (e c) v) <= length (List.filter (e c) u)) ->
    length v <= length u.
Proof.
  intros Hrefl Hshare v.
  remember (length v) as n eqn:Hn. revert v Hn.
  induction n as [n IH] using lt_wf_ind. intros v Hn u Hall.
  destruct v as [|c v']; [cbn in Hn; lia|].
  set (v := c :: v') in *.
  rewrite Hn, (filter_length_split (e c) v), (filter_length_split (e c) u).
  assert (Hshrink : length (List.filter (fun x => negb (e c x)) v) < n).
  { rewrite Hn. apply (filter_length_lt _ _ c); [now left|]. now rewrite Hrefl. }
  assert (Hrest : length (List.filter (fun x => negb (e c x)) v)
                  <= length (List.filter (fun x => negb (e c x)) u)).
  { apply (IH _ Hshrink _ eq_refl). intros c' Hc'.
    apply filter_In in Hc' as [Hc' Hnot]. apply negb_true_iff in Hnot.
    assert (Hsame : forall l, List.filter (e c') (List.filter (fun x => negb (e c x)) l)
                              = List.filter (e c') l).
    { intros l. rewrite filter_filter. apply filter_ext. intros x.
      destruct (e c' x) eqn:Hx; [|now rewrite andb_false_r].
      destruct (e c x) eqn:Hcx; [|reflexivity].
      rewrite (Hshare c c' x Hcx Hx) in Hnot. discriminate. }
    rewrite !Hsame. now apply Hall. }
  specialize (Hall c (or_introl eq_refl)). lia.
Qed.

(** X13: the output never has more classes than the segment.  A merge may
    push its representative twice, but [validated] is never longer than
    [parsed]. *)
Theorem output_not_longer tg parsed :
  length (validatedClasses (validate tg parsed)) <= length parsed.
Proof.
  unfold validatedClasses. rewrite length_map.
  apply Nat.le_trans with (length (seq 0 (length parsed))); [|now rewrite length_seq].
  pose proof (validate_common tg parsed) as HC.
  apply (length_by_classes (fun c x => sameTriple (deref parsed x) (deref parsed c))).
  - intros c. apply sameTriple_refl.
  - intros c c' x Hcx Hc'x. rewrite sameTriple_sym.
    rewrite sameTriple_sym in Hcx. now rewrite (sameTriple_trans _ _ _ Hcx) in Hc'x.
  - intros c Hc. pose proof (c_bound _ _ _ HC c Hc) as Hlt.
    fold (members parsed c).
    destruct (String.eqb_spec (parentType (deref parsed c)) "") as [Hpass|Hfam].
    + assert (Hin : forall l, List.filter (fun x => sameTriple (deref parsed x) (deref parsed c))
                                (List.filter (isPassthrough parsed) l)
                              = List.filter (fun x => sameTriple (deref parsed x) (deref parsed c)) l).
      { intros l. rewrite filter_filter. apply filter_ext. intros x.
        destruct (sameTriple (deref parsed x) (deref parsed c)) eqn:Hs;
          [|now rewrite andb_false_r].
        apply sameTriple_spec in Hs as (Hp & _). unfold isPassthrough.
        rewrite Hp, Hpass. reflexivity. }
      rewrite <- Hin, validate_passthrough, Hin. unfold members. lia.
    + destruct (c_settled _ _ _ HC c Hlt Hfam) as [Hnil|Hset].
      * rewrite Hnil. cbn [length]. lia.
      * apply (f_equal (@length _)) in Hset. rewrite length_map in Hset. rewrite Hset.
        etransitivity; [apply visitGroup_not_longer|]. now rewrite length_map.
Qed.

(** ** Sets, not lists *)

Lemma someIs_In code arr :
  someIs code arr = true <-> exists c, In c arr /\ shorthand c = code.
Proof.
  unfold someIs. rewrite existsb_exists. split; intros (c & Hc & Heq); exists c;
    (split; [exact Hc|]); now apply String.eqb_eq.
Qed.

(** X14: the flags, and with them the decision of the resolver, depend on the
    candidate set only through the directional codes that occur in it:
    neither the order of the members nor their number matters. *)
Theorem flags_depend_on_codes pty same same' :
  (forall code, In code codes11 ->
     ((exists c, In c same /\ shorthand c = code)
      <-> (exists c, In c same' /\ shorthand c = code))) ->
  flagsOf pty same = flagsOf pty same'
  /\ decisionOf (flagsOf pty same) = decisionOf (flagsOf pty same').
Proof.
  intros Hcodes.
  assert (Hflags : flagsOf pty same = flagsOf pty same').
  { rewrite !flagsOf_flagsBy. apply flagsBy_ext. intros k Hk.
    specialize (Hcodes k Hk). rewrite <- !someIs_In in Hcodes.
    destruct (someIs k same), (someIs k same'); try reflexivity.
    - symmetry. now apply Hcodes.
    - now apply Hcodes. }
  split; [exact Hflags|now rewrite Hflags].
Qed.

Lemma flags_depend_on_codes_witness :
  flagsOf "Border Radius" [cornerClass "tl"; cornerClass "tr"; cornerClass "tl"]
  = flagsOf "Border Radius" [cornerClass "tr"; cornerClass "tl"]
  /\ decisionOf (flagsOf "Border Radius" [cornerClass "tl"; cornerClass "tr"; cornerClass "tl"])
     = decisionOf (flagsOf "Border Radius" [cornerClass "tr"; cornerClass "tl"]).
Proof.
  apply flags_depend_on_codes. intros code _. split.
  - intros (c & [<-|[<-|[<-|[]]]] & Hc); eexists; (split; [|exact Hc]); cbn; tauto.
  - intros (c & [<-|[<-|[]]] & Hc); eexists; (split; [|exact Hc]); cbn; tauto.
Defined.

(** ** A class alone is never merged *)

(** X15: every merge that the run records comes from a candidate set of at
    least two parsed descriptors with the same non-empty parentType, the same
    variants and the same value; a class that is alone in its candidate set
    never gives a finding. *)
Theorem merges_need_two tg parsed t :
  In t (troubles (validate tg parsed)) ->
  exists cls,
    cls < length parsed
    /\ parentType (deref parsed cls) <> ""
    /\ 2 <= length (members parsed cls)
    /\ In t (snd (visitGroup tg (map (deref parsed) (members parsed cls)))).
Proof.
  intros Ht.
  destruct (c_explained _ _ _ (validate_common tg parsed) t Ht) as (cls & Hcls & Hfam & Hin).
  exists cls. split_and!; try assumption.
  destruct (Nat.le_gt_cases 2 (length (members parsed cls))) as [Hle|Hlt]; [exact Hle|].
  rewrite visitGroup_small in Hin; [destruct Hin|]. rewrite length_map. lia.
Qed.

Lemma merges_need_two_witness :
  exists cls,
    cls < 3
    /\ parentType (deref [mkClass "mt-3" "" "Margin" "3" "t" "" "";
                          mkClass "flex" "" "" "" "" "" "";
                          mkClass "mb-3" "" "Margin" "3" "b" "" ""] cls) <> ""
    /\ 2 <= length (members [mkClass "mt-3" "" "Margin" "3" "t" "" "";
                             mkClass "flex" "" "" "" "" "" "";
                             mkClass "mb-3" "" "Margin" "3" "b" "" ""] cls)
    /\ In (["mt-3"; "mb-3"], "my-3")
          (snd (visitGroup sampleGroups
                  (map (deref [mkClass "mt-3" "" "Margin" "3" "t" "" "";
                               mkClass "flex" "" "" "" "" "" "";
                               mkClass "mb-3" "" "Margin" "3" "b" "" ""])
                       (members [mkClass "mt-3" "" "Margin" "3" "t" "" "";
                                 mkClass "flex" "" "" "" "" "" "";
                                 mkClass "mb-3" "" "Margin" "3" "b" "" ""] cls)))).
Proof.
  apply (merges_need_two sampleGroups
           [mkClass "mt-3" "" "Margin" "3" "t" "" "";
            mkClass "flex" "" "" "" "" "" "";
            mkClass "mb-3" "" "Margin" "3" "b" "" ""]
           (["mt-3"; "mb-3"], "my-3")).
  vm_compute. left. reflexivity.
Defined.

(** ** Nothing shared, nothing reported *)

(** X16: classes that share no candidate set are left alone.  When no two
    parsed descriptors with a non-empty parentType have the same parentType,
    variants and value, the segment gives no report, the run records no merge
    and writes nothing. *)
Theorem nothing_shared_nothing_reported `{Collaborators} tg seg :
  (forall r1 r2, r1 < length (parsedOf tg seg) -> r2 < length (parsedOf tg seg) ->
     parentType (deref (parsedOf tg seg) r1) <> "" ->
     sameTriple (deref (parsedOf tg seg) r1) (deref (parsedOf tg seg) r2) = true ->
     r1 = r2) ->
  reportsOf tg seg = []
  /\ forall o, analyse tg seg = Some o ->
       troubles (o_state o) = [] /\ store (o_state o) = parsedOf tg seg.
Proof.
  intros Hdistinct.
  destruct (nothing_shared_nothing_merged tg (parsedOf tg seg) Hdistinct) as [Hnone Hstore].
  unfold reportsOf, analyse. destruct (Nat.leb _ 1); [split; [reflexivity|discriminate]|].
  unfold issuesOf. rewrite Hnone. cbn [List.filter fold_left snd o_reports].
  split; [reflexivity|]. intros o Ho. inversion Ho; subst o. cbn [o_state].
  now split.
Qed.

Lemma nothing_shared_nothing_reported_witness :
  @reportsOf sampleCollaborators sampleGroups (mkSegment "mt-3 mb-4 pt-3" 1 1 "" "" true) = []
  /\ forall o, @analyse sampleCollaborators sampleGroups
                 (mkSegment "mt-3 mb-4 pt-3" 1 1 "" "" true) = Some o ->
       troubles (o_state o) = []
       /\ store (o_state o)
          = @parsedOf sampleCollaborators sampleGroups
              (mkSegment "mt-3 mb-4 pt-3" 1 1 "" "" true).
Proof.
  apply (@nothing_shared_nothing_reported sampleCollaborators sampleGroups
           (mkSegment "mt-3 mb-4 pt-3" 1 1 "" "" true)).
  intros r1 r2 H1 H2 _.
  change (length (@parsedOf sampleCollaborators sampleGroups
                    (mkSegment "mt-3 mb-4 pt-3" 1 1 "" "" true))) with 3 in H1, H2.
  destruct r1 as [|[|[|r1]]]; [| | |lia];
    (destruct r2 as [|[|[|r2]]]; [| | |lia]); vm_compute; congruence.
Defined.
